(** * app-sync: the app object, its lifecycle and the web-hook dispatcher

    A shallow embedding of [src/app.js] (the app factory with [download],
    [update], [start], [stop], [restart]) and of [src/api-webhook.js]
    (the [post] handler), with the properties stated about them.

    JavaScript values are modelled as follows.
    - A string property that may be absent is an [option string];
      [undefined] is [None].
    - A promise settles once, with [Resolved] or [Rejected].
    - The outside world (GitHub, pm2, the shell, the log, the publish
      callback) is observed through a chronological [trace] of events; the
      answers of the outside world are oracles indexed by the length of the
      trace at the time of the call. *)

From stdpp Require Import base list strings pretty.
From Stdlib Require Import Ascii ZArith Lia.

Open Scope string_scope.
Open Scope list_scope.

(** ** JavaScript helpers *)

(** Values accepted by [isEmpty]: [undefined], a string, an array of strings
    (the [route] setting is a string or an array of strings). *)
Inductive jsval :=
| Undefined
| Str (s : string)
| Arr (xs : list string).

Definition of_str (o : option string) : jsval :=
  match o with
  | Some s => Str s
  | None => Undefined
  end.

(** Errors thrown by the code or delivered by a rejected promise. *)
Inductive error :=
| Error (msg : string)
| TypeError (msg : string).

(** [a || b] on strings: [undefined] and the empty string are falsy. *)
Definition or_str (a : option string) (b : string) : string :=
  match a with
  | Some s => if String.eqb s "" then b else s
  | None => b
  end.

(** [a || b] on numbers: [undefined] and [0] are falsy. *)
Definition or_num (a : option Z) (b : Z) : Z :=
  match a with
  | Some n => if Z.eqb n 0 then b else n
  | None => b
  end.

(** [s.split("/")]: never empty, one more segment than there are slashes. *)
Fixpoint split (s : string) : list string :=
  match s with
  | EmptyString => [EmptyString]
  | String c rest =>
      if Ascii.eqb c "/"%char then EmptyString :: split rest
      else match split rest with
           | seg :: segs => String c seg :: segs
           | [] => [String c EmptyString]
           end
  end.

(** [parts.join("/")]. *)
Definition join (parts : list string) : string := String.concat "/" parts.

(** [R.takeLast(n, xs)]. *)
Definition takeLast {A} (n : nat) (xs : list A) : list A :=
  drop (length xs - n) xs.

(** [R.last(xs)] on an array of strings; [undefined] on the empty array. *)
Definition R_last (xs : list string) : option string := last xs.

(** A template literal prints an absent value as [undefined]. *)
Definition show (o : option string) : string := default "undefined" o.

(** ** The app factory *)

(** Payload of a published event: [{id, version}] for ["app:updated"],
    [{id}] for ["app:restarted"] ([pl_version] is [None] when the key is
    absent or undefined). *)
Record payload := { pl_id : string; pl_version : option string }.

(** The caller's publish callback; it returns normally ([None]) or throws. *)
Definition publish_fn := string -> payload -> option error.

Record settings := {
  s_userAgent : option string;
  s_token : option string;
  s_targetFolder : option string;
  s_id : option string;
  s_repo : option string;
  s_port : option Z;
  s_branch : option string;
  s_route : jsval;
  s_publishEvent : option publish_fn
}.

(** The handle returned by [github.repo(userAgent, "user/name", {token})]
    of the library file-system-github, with the two properties the factory
    adds to it. Its [name] is taken to be the ["user/name"] it was made
    with; the dispatcher compares it with the full name of a repository. *)
Record repo_handle := {
  r_name : string;
  r_userAgent : string;
  r_token : option string;
  r_path : string;
  r_fullPath : string
}.

(** The app object. The first six fields are its public properties; the
    others are the variables its methods close over. *)
Record app (Route : Type) := {
  app_id : string;
  app_repo : repo_handle;
  app_routes : list Route;
  app_port : Z;
  app_branch : string;
  app_localFolder : string;
  repoSubFolder : string;
  processName : string;
  WORKING_DIRECTORY : string;
  publishEvent : option publish_fn
}.
Arguments app_id {Route} _.
Arguments app_repo {Route} _.
Arguments app_routes {Route} _.
Arguments app_port {Route} _.
Arguments app_branch {Route} _.
Arguments app_localFolder {Route} _.
Arguments repoSubFolder {Route} _.
Arguments processName {Route} _.
Arguments WORKING_DIRECTORY {Route} _.
Arguments publishEvent {Route} _.

Definition msg_id : string := "'id' for the app is required".
Definition msg_repo : string := "'repo' name required, eg. 'username/my-repo'".
Definition msg_userAgent : string :=
  "The github API user-agent must be specified.  See: https://developer.github.com/v3/#user-agent-required".
Definition msg_route (id : option string) : string :=
  "One or more 'route' values must be specified for the '" +:+ show id +:+ "' app.".
Definition msg_parts : string :=
  "A repo must have a 'username' and 'repo-name', eg 'username/repo'.".

Section Factory.
(** Parts of the repository and of its platform that the factory uses and
    whose code is not available: [isEmpty] of [./util],
    [Route.parseAll] of [./route], the two defaults of [./const],
    [process.cwd()] and [fsPath.resolve(fsPath.join(_, _))]. *)
Variable isEmpty : jsval -> bool.
Variable Route : Type.
Variable Route_parseAll : jsval -> list Route.
Variable DEFAULT_TARGET_FOLDER : string.
Variable DEFAULT_APP_PORT : Z.
Variable cwd : string.
Variable resolve_join : string -> string -> string.

(** The factory, [export default (settings = {}) => ...]; a [throw] is
    [inl]. *)
Definition create (st : settings) : error + app Route :=
  if isEmpty (of_str (s_id st)) then inl (Error msg_id)
  else if isEmpty (of_str (s_repo st)) then inl (Error msg_repo)
  else if isEmpty (of_str (s_userAgent st)) then inl (Error msg_userAgent)
  else if isEmpty (s_route st) then inl (Error (msg_route (s_id st)))
  else
    let branch := or_str (s_branch st) "master" in
    let targetFolder := or_str (s_targetFolder st) DEFAULT_TARGET_FOLDER in
    let port := or_num (s_port st) DEFAULT_APP_PORT in
    let routes := Route_parseAll (s_route st) in
    match s_repo st with
    | None => inl (TypeError "Cannot read property 'split' of undefined")
    | Some fullPath =>
        let parts := split fullPath in
        if Nat.ltb (length parts) 2 then inl (Error msg_parts)
        else
          let repoUser := show (parts !! 0%nat) in
          let repoName := show (parts !! 1%nat) in
          let parts' := takeLast (length parts - 2) parts in
          let subFolder := join parts' in
          let id := show (s_id st) in
          inr {| app_id := id;
                 app_repo := {| r_name := repoUser +:+ "/" +:+ repoName;
                                r_userAgent := show (s_userAgent st);
                                r_token := s_token st;
                                r_path := subFolder;
                                r_fullPath := fullPath |};
                 app_routes := routes;
                 app_port := port;
                 app_branch := branch;
                 app_localFolder := resolve_join targetFolder id;
                 repoSubFolder := subFolder;
                 processName := id +:+ ":" +:+ pretty port;
                 WORKING_DIRECTORY := cwd;
                 publishEvent := s_publishEvent st |}
    end.
End Factory.

Arguments create isEmpty {Route} Route_parseAll _ _ _ _ _.

(** ** Promises, events and the world *)

(** How a promise settles. *)
Inductive outcome (A : Type) :=
| Resolved (a : A)
| Rejected (e : error).
Arguments Resolved {A} a.
Arguments Rejected {A} e.

(** [download(options)]: both flags are optional. *)
Record download_options := { o_install : option bool; o_force : option bool }.

(** What [appDownload] resolves with; the app object passes it on as it is. *)
Record download_result := { d_path : string; d_installed : bool }.

(** What [appVersion] resolves with. *)
Record version_info := {
  v_exists : bool;
  v_local : option string;
  v_remote : option string
}.

(** [update(options)]: [start] is optional. *)
Record update_options := { u_start : option bool }.

(** What [appUpdate] resolves with. [ur_exists] may be absent, and
    [start] tests it with [!== false]. *)
Record update_result := {
  ur_exists : option bool;
  ur_updated : bool;
  ur_version : option string;
  ur_started : option bool
}.

Record start_result (Route : Type) := {
  sr_id : string;
  sr_port : Z;
  sr_routes : list Route;
  sr_version : option string;
  sr_started : bool;
  sr_exists : bool
}.
Arguments sr_id {Route} _.
Arguments sr_port {Route} _.
Arguments sr_routes {Route} _.
Arguments sr_version {Route} _.
Arguments sr_started {Route} _.
Arguments sr_exists {Route} _.

Record stop_result := { st_id : string; st_stopped : bool }.

Record restart_result := { rs_id : string; rs_restarted : bool }.

(** What the app does to the outside world, in the order it does it.
    [EvStopResolved] marks the point where [stop] calls
    [resolve({ id, stopped: true })]. *)
Inductive event :=
| EvVersion (id : string)
| EvAppDownload (id : string) (options : download_options)
| EvPm2Connect
| EvPm2Delete (name : string)
| EvStopResolved (name : string)
| EvShellCd (dir : string)
| EvShellExec (cmd : string)
| EvLogWarn (msg : string)
| EvPublish (name : string) (p : payload).

(** The promise [appDownload(...).then(...)] stored in [this.downloading]. *)
Inductive pstate :=
| Pending
| Settled (o : outcome download_result).

(** The mutable state: the two properties [download] puts on the app
    object, the promises it has created (a handle is an index) and the trace. *)
Record world := {
  downloading : option nat;
  isDownloading : option bool;
  promises : list pstate;
  trace : list event
}.

Definition init_world : world :=
  {| downloading := None; isDownloading := None; promises := []; trace := [] |}.

Definition log (e : event) (w : world) : world :=
  {| downloading := downloading w;
     isDownloading := isDownloading w;
     promises := promises w;
     trace := trace w ++ [e] |}.

(** ** [download] and the settlement of its promise *)

(** [download(options)]: returns the promise in the slot when there is
    one; otherwise calls [appDownload], chains [then] and stores the
    chained promise in the slot. *)
Definition download {Route} (a : app Route) (options : download_options)
    (w : world) : nat * world :=
  match downloading w with
  | Some p => (p, w)
  | None =>
      let p := length (promises w) in
      (p, {| downloading := Some p;
             isDownloading := isDownloading w;
             promises := promises w ++ [Pending];
             trace := trace w ++ [EvAppDownload (app_id a) options] |})
  end.

(** The [appDownload] promise behind handle [p] settles with [o]. When it
    resolves, the [then] callback runs: it sets [isDownloading] to [false],
    deletes the slot and passes the result on. When it rejects, the callback
    is skipped and the chained promise rejects with the same error. *)
Definition settle (p : nat) (o : outcome download_result) (w : world) : world :=
  match promises w !! p with
  | Some Pending =>
      match o with
      | Resolved _ =>
          {| downloading := None;
             isDownloading := Some false;
             promises := <[p := Settled o]> (promises w);
             trace := trace w |}
      | Rejected _ =>
          {| downloading := downloading w;
             isDownloading := isDownloading w;
             promises := <[p := Settled o]> (promises w);
             trace := trace w |}
      end
  | _ => w
  end.

(** What can happen to one app's download slot: a caller calls [download],
    or the outside world settles a download. *)
Inductive action :=
| Call (options : download_options)
| Settle (p : nat) (o : outcome download_result).

(** Runs the actions in order; returns the handles the calls got. *)
Fixpoint exec {Route} (a : app Route) (acts : list action) (w : world)
    : list nat * world :=
  match acts with
  | [] => ([], w)
  | Call options :: rest =>
      let '(p, w1) := download a options w in
      let '(ps, w2) := exec a rest w1 in
      (p :: ps, w2)
  | Settle p o :: rest => exec a rest (settle p o w)
  end.

(** The number of times [appDownload] was called. *)
Definition is_appDownload (e : event) : bool :=
  match e with
  | EvAppDownload _ _ => true
  | _ => false
  end.

Definition invocations (w : world) : nat :=
  length (filter (fun e => is_appDownload e = true) (trace w)).

(** ** Sequential code: [Promise.coroutine] with [yield] *)

(** A computation that runs on the world and settles; [None] means that the
    fuel of the recursion between [start] and [update] ran out. *)
Definition M (A : Type) : Type := world -> option (outcome A * world).

Definition ret {A} (a : A) : M A := fun w => Some (Resolved a, w).

Definition throw {A} (e : error) : M A := fun w => Some (Rejected e, w).

(** [yield m] followed by the rest of the coroutine inside
    [try { ... } catch (err) { reject(err); }]. *)
Definition bind {A B} (m : M A) (k : A -> M B) : M B :=
  fun w =>
    match m w with
    | Some (Resolved a, w1) => k a w1
    | Some (Rejected e, w1) => Some (Rejected e, w1)
    | None => None
    end.

Definition emit (e : event) : M unit := fun w => Some (Resolved tt, log e w).

Notation "'yield' x '<-' m ';;' k" := (bind m (fun x => k))
  (at level 10, x name, m at level 99, k at level 200).
Notation "m ';;;' k" := (bind m (fun _ => k))
  (at level 100, k at level 200, right associativity).

Section Lifecycle.
Variable Route : Type.

(** The outside world. [pm2_isInstalled] is [pm2.isInstalled]; each
    oracle gives the outcome of one capability, as a function of the
    length of the trace when the capability is called. *)
Variable pm2_isInstalled : bool.
Variable o_version : nat -> outcome version_info.
Variable o_download : nat -> outcome download_result.
Variable o_connect : nat -> outcome unit.
Variable o_delete : nat -> outcome unit.

(** [appUpdate] of [./app-update], whose code is not available: it gets
    the id, the local folder, the three callbacks and the options. *)
Variable appUpdate :
  string -> string -> M version_info -> (download_options -> M download_result) ->
  M (start_result Route) -> update_options -> M update_result.

Definition ask {A} (oracle : nat -> outcome A) (e : event) : M A :=
  fun w => Some (oracle (length (trace w)), log e w).

(** [version()], that is [appVersion(id, localPackage(), remotePackage())]. *)
Definition version (a : app Route) : M version_info :=
  ask o_version (EvVersion (app_id a)).

(** [yield this.download(args)]: calls [download] and waits for the promise
    it returns. A promise that is still pending is settled by the outside
    world; a settled one gives its outcome at once. (A handle without a
    promise, which no run produces, counts as pending.) *)
Definition download_await (a : app Route) (options : download_options)
    : M download_result :=
  fun w =>
    let '(p, w1) := download a options w in
    match promises w1 !! p with
    | Some (Settled o) => Some (o, w1)
    | _ =>
        let o := o_download (length (trace w1)) in
        Some (o, settle p o w1)
    end.

(** [stop()]. *)
Definition stop (a : app Route) : M stop_result :=
  (if pm2_isInstalled
   then ask o_connect EvPm2Connect ;;;
        ask o_delete (EvPm2Delete (processName a))
   else ret tt) ;;;
  emit (EvStopResolved (processName a)) ;;;
  ret {| st_id := app_id a; st_stopped := true |}.

Definition start_command (a : app Route) : string :=
  "pm2 start . --name '" +:+ processName a +:+ "' --node-args '. --port "
    +:+ pretty (app_port a) +:+ "'".

Definition warn_missing (a : app Route) : string :=
  "WARNING: The app '" +:+ app_id a +:+ "' cannot be started as it does not exist at: '"
    +:+ r_fullPath (app_repo a) +:+ ":" +:+ app_branch a +:+ "'".

(** [status.exists !== false]. *)
Definition exists_not_false (status : update_result) : bool :=
  match ur_exists status with
  | Some false => false
  | _ => true
  end.

(** The then-callback of [update]: publishes when there is a callback and
    [result.updated] holds. An exception of the callback only rejects the
    promise that [then] returns, which nobody holds. *)
Definition alert (a : app Route) (result : update_result) (w : world) : world :=
  match publishEvent a with
  | Some _ =>
      if ur_updated result
      then log (EvPublish "app:updated"
                  {| pl_id := app_id a; pl_version := ur_version result |}) w
      else w
  | None => w
  end.

(** [start()] and [update(options)] call each other through [appUpdate]. *)
Fixpoint start (fuel : nat) (a : app Route) {struct fuel}
    : M (start_result Route) :=
  match fuel with
  | O => fun _ => None
  | S n =>
      yield status <- update n a {| u_start := Some false |} ;;
      stop a ;;;
      (if exists_not_false status
       then
         emit (EvShellCd (app_localFolder a)) ;;;
         emit (EvShellExec (start_command a)) ;;;
         emit (EvShellCd (WORKING_DIRECTORY a)) ;;;
         ret {| sr_id := app_id a; sr_port := app_port a;
                sr_routes := app_routes a; sr_version := ur_version status;
                sr_started := true; sr_exists := true |}
       else
         emit (EvLogWarn (warn_missing a)) ;;;
         ret {| sr_id := app_id a; sr_port := app_port a;
                sr_routes := app_routes a; sr_version := ur_version status;
                sr_started := false; sr_exists := false |})
  end
with update (fuel : nat) (a : app Route) (options : update_options)
    {struct fuel} : M update_result :=
  match fuel with
  | O => fun _ => None
  | S n =>
      fun w =>
        match appUpdate (app_id a) (app_localFolder a) (version a)
                (download_await a) (start n a) options w with
        | Some (Resolved result, w1) => Some (Resolved result, alert a result w1)
        | Some (Rejected e, w1) => Some (Rejected e, w1)
        | None => None
        end
  end.

(** [const updating = appUpdate(...)] in [update]. *)
Definition updating (fuel : nat) (a : app Route) (options : update_options)
    : M update_result :=
  appUpdate (app_id a) (app_localFolder a) (version a) (download_await a)
    (start fuel a) options.

(** [restart()]: calling an absent [publishEvent] throws a [TypeError]. *)
Definition restart (fuel : nat) (a : app Route) : M restart_result :=
  start fuel a ;;;
  match publishEvent a with
  | None => throw (TypeError "publishEvent is not a function")
  | Some f =>
      let p := {| pl_id := app_id a; pl_version := None |} in
      emit (EvPublish "app:restarted" p) ;;;
      match f "app:restarted" p with
      | Some e => throw e
      | None => ret {| rs_id := app_id a; rs_restarted := true |}
      end
  end.
End Lifecycle.

Arguments version {Route} o_version a.
Arguments download_await {Route} o_download a options.
Arguments stop {Route} pm2_isInstalled o_connect o_delete a.
Arguments start {Route} pm2_isInstalled o_version o_download o_connect o_delete
  appUpdate fuel a.
Arguments update {Route} pm2_isInstalled o_version o_download o_connect o_delete
  appUpdate fuel a options.
Arguments restart {Route} pm2_isInstalled o_version o_download o_connect o_delete
  appUpdate fuel a.
Arguments updating {Route} pm2_isInstalled o_version o_download o_connect o_delete
  appUpdate fuel a options.
Arguments alert {Route} a result w.
Arguments start_command {Route} a.
Arguments warn_missing {Route} a.

(** ** The updater *)

(** An update is needed when there is no local manifest or the two version
    strings differ. *)
Definition needs_update (v : version_info) : bool :=
  match v_local v with
  | None => true
  | Some l => negb (bool_decide (Some l = v_remote v))
  end.

(** [options.start], [true] by default. *)
Definition start_enabled (options : update_options) : bool :=
  default true (u_start options).

(** Modelled from the spec: [appUpdate] of [./app-update], whose code is
    not available. It resolves the version; when the remote manifest is
    absent the result is [{exists:false, updated:false}]; when an update is
    needed it downloads and then, if [options.start] (default [true]), calls
    [start]; the result is [{updated, version, exists:true, started?}]. *)
Definition appUpdate_spec {Route} (id localFolder : string)
    (version : M version_info)
    (download : download_options -> M download_result)
    (start : M (start_result Route))
    (options : update_options) : M update_result :=
  yield v <- version ;;
  if negb (v_exists v)
  then ret {| ur_exists := Some false; ur_updated := false;
              ur_version := None; ur_started := None |}
  else if needs_update v
  then
    download {| o_install := None; o_force := None |} ;;;
    if start_enabled options
    then
      yield s <- start ;;
      ret {| ur_exists := Some true; ur_updated := true;
             ur_version := v_remote v; ur_started := Some (sr_started s) |}
    else
      ret {| ur_exists := Some true; ur_updated := true;
             ur_version := v_remote v; ur_started := None |}
  else
    ret {| ur_exists := Some true; ur_updated := false;
           ur_version := v_remote v; ur_started := None |}.

(** ** The web-hook dispatcher *)

(** The body of a GitHub notification. *)
Record notification := {
  n_ref : option string;
  n_full_name : string;
  n_default_branch : string
}.

(** What [post] does, in order. [UpdateCalled] is [app.update()], whose
    promise is dropped; [Respond] is [res.status(_).send()]. *)
Inductive dispatch_event (Route : Type) :=
| LogInfo (msg : string)
| UpdateCalled (a : app Route) (options : update_options)
| Respond (status : Z).
Arguments LogInfo {Route} msg.
Arguments UpdateCalled {Route} a options.
Arguments Respond {Route} status.

(** [data.ref && R.last(data.ref.split("/"))]. *)
Definition ref_last (ref : option string) : option string :=
  match ref with
  | None => None
  | Some r => if String.eqb r "" then Some "" else R_last (split r)
  end.

(** [const branch = (...) || data.repository.default_branch]. *)
Definition post_branch (data : notification) : string :=
  or_str (ref_last (n_ref data)) (n_default_branch data).

Definition isRepoMatch {Route} (data : notification) (a : app Route) : bool :=
  String.eqb (r_name (app_repo a)) (n_full_name data)
  && String.eqb (app_branch a) (post_branch data).

Definition matchingApps {Route} (apps : list (app Route)) (data : notification)
    : list (app Route) :=
  List.filter (isRepoMatch data) apps.

Definition post {Route} (apps : list (app Route)) (data : notification)
    : list (dispatch_event Route) :=
  let matching := matchingApps apps data in
  (if Nat.ltb 0 (length matching)
   then LogInfo ("Github webhook for '" +:+ n_full_name data +:+ ":"
                   +:+ post_branch data +:+ "' => Checking for updates: "
                   +:+ String.concat "," (map app_id matching))
        :: map (fun a => UpdateCalled a {| u_start := None |}) matching
   else [])
  ++ [Respond 200].

(** The last path segment of a ref. *)
Definition last_segment (r : string) : string := show (R_last (split r)).

(** The branch as the notification contract words it: the last path segment
    of [ref] when [ref] is present, otherwise the default branch. *)
Definition contract_branch (data : notification) : string :=
  match n_ref data with
  | Some r => last_segment r
  | None => n_default_branch data
  end.

(** The apps the contract selects with that branch. *)
Definition contract_matching {Route} (apps : list (app Route))
    (data : notification) : list (app Route) :=
  List.filter
    (fun a => String.eqb (r_name (app_repo a)) (n_full_name data)
              && String.eqb (app_branch a) (contract_branch data)) apps.

(** A push notification whose ref ends with a slash. *)
Definition trailing_slash_push : notification :=
  {| n_ref := Some "refs/heads/"; n_full_name := "acme/svc-a";
     n_default_branch := "master" |}.

(** ** The download slot: invariant and reachable worlds *)

(** A pending download promise is the one in the slot. *)
Definition slot_inv (w : world) : Prop :=
  forall q, promises w !! q = Some Pending -> downloading w = Some q.

(** A sample app, for concrete runs. *)
Definition sample_settings : settings :=
  {| s_userAgent := Some "app-sync"; s_token := None; s_targetFolder := None;
     s_id := Some "svc-a"; s_repo := Some "acme/svc-a/sub/path"; s_port := None;
     s_branch := None; s_route := Str "/svc-a"; s_publishEvent := None |}.

Definition sample_isEmpty (v : jsval) : bool :=
  match v with
  | Undefined => true
  | Str s => String.eqb s ""
  | Arr xs => Nat.eqb (length xs) 0
  end.

Definition sample_parseAll (v : jsval) : list string :=
  match v with
  | Undefined => []
  | Str s => [s]
  | Arr xs => xs
  end.

Definition sample_create (st : settings) : error + app string :=
  create sample_isEmpty sample_parseAll ".build" 3000%Z "/srv"
    (fun root id => root +:+ "/" +:+ id) st.

Definition sample_app : app string :=
  {| app_id := "svc-a";
     app_repo := {| r_name := "acme/svc-a"; r_userAgent := "app-sync";
                    r_token := None; r_path := "sub/path";
                    r_fullPath := "acme/svc-a/sub/path" |};
     app_routes := ["/svc-a"];
     app_port := 3000;
     app_branch := "master";
     app_localFolder := ".build/svc-a";
     repoSubFolder := "sub/path";
     processName := "svc-a:3000";
     WORKING_DIRECTORY := "/srv";
     publishEvent := None |}.

Definition no_options : download_options :=
  {| o_install := None; o_force := None |}.

Definition sample_app_pub : app string :=
  {| app_id := "svc-a";
     app_repo := app_repo sample_app;
     app_routes := ["/svc-a"];
     app_port := 3000;
     app_branch := "master";
     app_localFolder := ".build/svc-a";
     repoSubFolder := "sub/path";
     processName := "svc-a:3000";
     WORKING_DIRECTORY := "/srv";
     publishEvent := Some (fun _ _ => None) |}.

(** Sample answers of the outside world. *)
Definition versions (l r : string) : nat -> outcome version_info :=
  fun _ => Resolved {| v_exists := true; v_local := Some l; v_remote := Some r |}.

Definition version_missing : nat -> outcome version_info :=
  fun _ => Resolved {| v_exists := false; v_local := None; v_remote := None |}.

Definition downloaded : nat -> outcome download_result :=
  fun _ => Resolved {| d_path := ".build/svc-a"; d_installed := true |}.

Definition fine : nat -> outcome unit := fun _ => Resolved tt.

Definition connect_fails : nat -> outcome unit :=
  fun _ => Rejected (Error "connect failed").

(** ** Order of stop and start in a trace *)

(** Where the process of an app is, as far as a trace tells: nothing known,
    deleted from pm2, or [stop] resolved. *)
Inductive phase :=
| Unknown
| Deleted
| Stopped.

(** One event. The start command is allowed only when [stop] has resolved
    since the last start; with pm2 installed, [stop] may resolve only after
    the delete of the named process. [None] is a violation. *)
Definition step_order (installed : bool) (name cmd : string) (s : phase)
    (e : event) : option phase :=
  match e with
  | EvPm2Delete n => if String.eqb n name then Some Deleted else Some s
  | EvStopResolved n =>
      if String.eqb n name
      then (if installed
            then match s with
                 | Deleted => Some Stopped
                 | _ => None
                 end
            else Some Stopped)
      else Some s
  | EvShellExec c =>
      if String.eqb c cmd
      then match s with
           | Stopped => Some Unknown
           | _ => None
           end
      else Some s
  | _ => Some s
  end.

Fixpoint scan_order (installed : bool) (name cmd : string) (s : phase)
    (evs : list event) : option phase :=
  match evs with
  | [] => Some s
  | e :: rest =>
      match step_order installed name cmd s e with
      | Some s' => scan_order installed name cmd s' rest
      | None => None
      end
  end.

(** The events respect the order for the app, whatever happened before. *)
Definition stop_before_start {Route} (installed : bool) (a : app Route)
    (evs : list event) : Prop :=
  forall s, is_Some (scan_order installed (processName a) (start_command a) s evs).

(** Events that say nothing about stop and start. *)
Definition neutral (e : event) : bool :=
  match e with
  | EvPm2Delete _ | EvStopResolved _ | EvShellExec _ => false
  | _ => true
  end.

(** What a computation adds to the trace is in order. *)
Definition in_order {Route A} (installed : bool) (a : app Route) (m : M A)
    : Prop :=
  forall w o w', m w = Some (o, w') ->
    exists evs, trace w' = trace w ++ evs /\
                stop_before_start installed a evs.

(** A computation that settles in every world. *)
Definition settles {A} (m : M A) : Prop :=
  forall w, exists o w', m w = Some (o, w').

(** ** Results *)

(** [{ id, stopped: true }]. *)
Definition stopped_ok {Route} (a : app Route) : stop_result :=
  {| st_id := app_id a; st_stopped := true |}.

(** The result of [start] for a status, started or not. *)
Definition started_result {Route} (a : app Route) (status : update_result)
    (started : bool) : start_result Route :=
  {| sr_id := app_id a; sr_port := app_port a; sr_routes := app_routes a;
     sr_version := ur_version status; sr_started := started;
     sr_exists := started |}.

(** The payload of ["app:updated"]. *)
Definition updated_payload {Route} (a : app Route) (result : update_result)
    : payload :=
  {| pl_id := app_id a; pl_version := ur_version result |}.

(** ** Slashes *)

(** The number of slashes of a string. *)
Fixpoint count_slash (s : string) : nat :=
  match s with
  | EmptyString => 0
  | String c rest =>
      if Ascii.eqb c "/"%char then S (count_slash rest) else count_slash rest
  end.

Definition has_slash (s : string) : bool := negb (Nat.eqb (count_slash s) 0).

(** ** Well-formed download state *)

(** [p] is a download that resolved. *)
Definition resolved_at (w : world) (p : nat) : Prop :=
  exists r, promises w !! p = Some (Settled (Resolved r)).

(** What holds of the download state of an app at any time: [appDownload]
    was called once per promise; every download but the latest has
    resolved; the slot is empty when the latest has resolved too, and
    otherwise holds the latest, which is pending or rejected; and
    [isDownloading] is not [true]. *)
Definition slot_wf (w : world) : Prop :=
  invocations w = length (promises w) /\
  (forall q, q + 1 < length (promises w) -> resolved_at w q) /\
  match downloading w with
  | Some p =>
      p + 1 = length (promises w) /\
      (promises w !! p = Some Pending \/
       exists e, promises w !! p = Some (Settled (Rejected e)))
  | None => forall q, q < length (promises w) -> resolved_at w q
  end /\
  isDownloading w <> Some true.

(** A tag push and a branch push with the same last segment. *)
Definition branch_push : notification :=
  {| n_ref := Some "refs/heads/master"; n_full_name := "acme/svc-a";
     n_default_branch := "main" |}.

Definition tag_push : notification :=
  {| n_ref := Some "refs/tags/master"; n_full_name := "acme/svc-a";
     n_default_branch := "develop" |}.

(** An app on a branch with a slash, and a push to that branch. *)
Definition feature_app : app string :=
  {| app_id := "svc-f";
     app_repo := app_repo sample_app;
     app_routes := ["/svc-f"];
     app_port := 3001;
     app_branch := "feature/x";
     app_localFolder := ".build/svc-f";
     repoSubFolder := "sub/path";
     processName := "svc-f:3001";
     WORKING_DIRECTORY := "/srv";
     publishEvent := None |}.

Definition feature_push : notification :=
  {| n_ref := Some "refs/heads/feature/x"; n_full_name := "acme/svc-a";
     n_default_branch := "master" |}.

(** * Properties *)

Example sample_create_ok : sample_create sample_settings = inr sample_app.
Proof. reflexivity. Qed.

Section DownloadSlot.
Context {Route : Type} (a : app Route).

Lemma slot_inv_init : slot_inv init_world.
Proof. intros q Hq. discriminate. Qed.

Lemma download_slot_set (options : download_options) (w : world) (p : nat) :
  downloading w = Some p -> download a options w = (p, w).
Proof. intros Hs. unfold download. by rewrite Hs. Qed.

Lemma download_keeps_inv (options : download_options) (w : world) :
  slot_inv w -> slot_inv (download a options w).2.
Proof.
  intros Hinv. unfold download.
  destruct (downloading w) as [p|] eqn:Hs; simpl; [done|].
  intros q Hq. simpl in *.
  destruct (decide (q < length (promises w))) as [Hlt|Hge].
  - rewrite lookup_app_l in Hq by done.
    apply Hinv in Hq. congruence.
  - apply lookup_lt_Some in Hq as Hlen. rewrite length_app in Hlen.
    simpl in Hlen. f_equal. lia.
Qed.

Lemma settle_keeps_inv (p : nat) (o : outcome download_result) (w : world) :
  slot_inv w -> slot_inv (settle p o w).
Proof.
  intros Hinv. unfold settle.
  destruct (promises w !! p) as [[|o']|] eqn:Hp; try done.
  assert (Hsp : downloading w = Some p) by by apply Hinv.
  assert (Hother : forall q, <[p:=Settled o]> (promises w) !! q = Some Pending -> False).
  { intros q Hq. destruct (decide (p = q)) as [->|Hne].
    - rewrite list_lookup_insert_eq in Hq; [done|]. by eapply lookup_lt_Some.
    - rewrite list_lookup_insert_ne in Hq by done.
      apply Hinv in Hq. congruence. }
  destruct o; intros q Hq; simpl in *; by apply Hother in Hq.
Qed.

Lemma exec_keeps_inv (acts : list action) (w : world) :
  slot_inv w -> slot_inv (exec a acts w).2.
Proof.
  revert w. induction acts as [|[options|p o] acts IH]; intros w Hinv; simpl.
  - done.
  - destruct (download a options w) as [p w1] eqn:Hd.
    specialize (IH w1). destruct (exec a acts w1) as [ps w2]. simpl in *.
    apply IH. replace w1 with (download a options w).2 by by rewrite Hd.
    by apply download_keeps_inv.
  - apply IH. by apply settle_keeps_inv.
Qed.

(** A settled promise stays settled, with the same outcome. *)
Lemma download_keeps_settled (options : download_options) (w : world)
    (p : nat) (o : outcome download_result) :
  promises w !! p = Some (Settled o) ->
  promises (download a options w).2 !! p = Some (Settled o).
Proof.
  intros Hp. unfold download. destruct (downloading w); simpl; [done|].
  rewrite lookup_app_l; [done|]. by eapply lookup_lt_Some.
Qed.

Lemma settle_keeps_settled (q : nat) (o' : outcome download_result)
    (w : world) (p : nat) (o : outcome download_result) :
  promises w !! p = Some (Settled o) ->
  promises (settle q o' w) !! p = Some (Settled o).
Proof.
  intros Hp. unfold settle.
  destruct (promises w !! q) as [[|o'']|] eqn:Hq; try done.
  assert (q <> p) by congruence.
  destruct o'; simpl; by rewrite list_lookup_insert_ne.
Qed.

Lemma exec_keeps_settled (acts : list action) (w : world)
    (p : nat) (o : outcome download_result) :
  promises w !! p = Some (Settled o) ->
  promises (exec a acts w).2 !! p = Some (Settled o).
Proof.
  revert w. induction acts as [|[options|q o'] acts IH]; intros w Hp; simpl.
  - done.
  - destruct (download a options w) as [h w1] eqn:Hd.
    specialize (IH w1). destruct (exec a acts w1) as [ps w2]. simpl in *.
    apply IH. replace w1 with (download a options w).2 by by rewrite Hd.
    by apply download_keeps_settled.
  - apply IH. by apply settle_keeps_settled.
Qed.

(** While the promise [p] is pending, nothing that happens changes the
    world, and every call gets [p]. *)
Lemma exec_while_pending (acts : list action) (w : world) (p : nat) :
  slot_inv w ->
  promises w !! p = Some Pending ->
  promises (exec a acts w).2 !! p = Some Pending ->
  (exec a acts w).2 = w /\ Forall (fun h => h = p) (exec a acts w).1.
Proof.
  revert w. induction acts as [|[options|q o] acts IH];
    intros w Hinv Hp Hend; simpl in *.
  - done.
  - assert (Hs : downloading w = Some p) by by apply Hinv.
    rewrite (download_slot_set options w p Hs) in Hend |- *.
    specialize (IH w Hinv Hp). destruct (exec a acts w) as [ps w2]. simpl in *.
    destruct (IH Hend) as [-> Hall]. split; [done|]. by constructor.
  - destruct (decide (q = p)) as [->|Hne].
    + exfalso. unfold settle in Hend. rewrite Hp in Hend.
      assert (Hlt : p < length (promises w)) by by eapply lookup_lt_Some.
      destruct o; simpl in Hend;
        (erewrite exec_keeps_settled in Hend;
         [discriminate | simpl; by rewrite list_lookup_insert_eq]).
    + assert (Hw : settle q o w = w).
      { unfold settle. destruct (promises w !! q) as [[|o']|] eqn:Hq; try done.
        apply Hinv in Hp, Hq. congruence. }
      rewrite Hw in Hend |- *. by apply IH.
Qed.
End DownloadSlot.

Section DownloadRange.
Context {Route : Type} (a : app Route).

(** The handle in the slot is a promise that exists. *)
Lemma exec_slot_in_range (acts : list action) (w : world) :
  (forall p, downloading w = Some p -> p < length (promises w)) ->
  forall p, downloading (exec a acts w).2 = Some p ->
            p < length (promises (exec a acts w).2).
Proof.
  revert w. induction acts as [|[options|q o] acts IH]; intros w Hw; simpl.
  - done.
  - destruct (download a options w) as [h w1] eqn:Hd.
    specialize (IH w1). destruct (exec a acts w1) as [ps w2]. simpl in *.
    apply IH. unfold download in Hd.
    destruct (downloading w) eqn:Hs; inversion Hd; subst; simpl.
    + by rewrite Hs.
    + intros p [= <-]. rewrite length_app. simpl. lia.
  - apply IH. unfold settle.
    destruct (promises w !! q) as [[|o']|]; try done.
    destruct o; simpl; [done|]. intros p Hp. rewrite length_insert. by apply Hw.
Qed.

Lemma download_invocations (options : download_options) (w : world) :
  invocations (download a options w).2 =
  match downloading w with
  | Some _ => invocations w
  | None => S (invocations w)
  end.
Proof.
  unfold download, invocations. destruct (downloading w); simpl; [done|].
  rewrite filter_app, length_app. simpl. lia.
Qed.
End DownloadRange.

(** C1. When the download slot of an app is set to [p], every further call
    of [download] returns [p], the same promise and hence the same result,
    and leaves the world as it is; [p] is the only download that can be
    pending; and as long as [p] is unsettled, whatever calls and settlements
    happen, all calls get [p] and [appDownload] is not called again. *)
Theorem download_single_flight {Route : Type} (a : app Route)
    (history further : list action) (p : nat) :
  let w := (exec a history init_world).2 in
  downloading w = Some p ->
  (forall options, download a options w = (p, w)) /\
  (forall q, promises w !! q = Some Pending -> q = p) /\
  (promises (exec a further w).2 !! p = Some Pending ->
   Forall (fun h => h = p) (exec a further w).1 /\
   invocations (exec a further w).2 = invocations w).
Proof.
  intros w Hs.
  assert (Hinv : slot_inv w) by (apply exec_keeps_inv, slot_inv_init).
  split; [|split].
  - intros options. by apply download_slot_set.
  - intros q Hq. apply Hinv in Hq. congruence.
  - intros Hend.
    destruct (promises w !! p) as [[|o]|] eqn:Hp.
    + destruct (exec_while_pending a further w p Hinv Hp Hend) as [Hw Hall].
      split; [done|]. by rewrite Hw.
    + rewrite (exec_keeps_settled a further w p o Hp) in Hend. discriminate.
    + exfalso. apply lookup_ge_None in Hp.
      assert (p < length (promises w)); [|lia].
      apply (exec_slot_in_range a history init_world); [|done].
      intros p' Hp'. discriminate.
Qed.

(** Two more callers join the download that the first caller started. *)
Lemma download_single_flight_witness :
  let w := (exec sample_app [Call no_options] init_world).2 in
  let further := [Call no_options; Call no_options] in
  downloading w = Some 0 /\
  (Forall (fun h => h = 0) (exec sample_app further w).1 /\
   invocations (exec sample_app further w).2 = invocations w).
Proof.
  split; [reflexivity|].
  apply (download_single_flight sample_app [Call no_options]
           [Call no_options; Call no_options] 0); reflexivity.
Defined.

(** From an idle app, any number of calls before a settlement call
    [appDownload] once. *)
Lemma concurrent_calls_invoke_once {Route : Type} (a : app Route)
    (first : download_options) (others : list download_options) :
  let r := exec a (Call first :: map Call others) init_world in
  Forall (fun h => h = 0) r.1 /\ invocations r.2 = 1.
Proof.
  simpl.
  assert (Hgen : forall w, downloading w = Some 0 ->
            (exec a (map Call others) w).2 = w /\
            Forall (fun h => h = 0) (exec a (map Call others) w).1).
  { induction others as [|o os IH]; intros w Hw; simpl; [done|].
    rewrite (download_slot_set a o w 0 Hw).
    destruct (IH w Hw) as [Heq Hall].
    destruct (exec a (map Call os) w) as [ps w2]. simpl in *.
    split; [done|]. by constructor. }
  match goal with |- context [exec a (map Call others) ?w0] =>
    destruct (Hgen w0 eq_refl) as [Heq Hall];
    destruct (exec a (map Call others) w0) as [ps w2] end.
  simpl in *. subst w2. split; [by constructor|reflexivity].
Qed.

(** C2. A rejected download leaves its promise in the slot: the next call
    of [download] returns the rejected promise and does not call
    [appDownload] again, whereas after a resolved download the slot is empty
    and the next call starts a new download. *)
Theorem download_failure_keeps_slot {Route : Type} (a : app Route)
    (o1 o2 : download_options) (e : error) (r : download_result) :
  let w1 := (download a o1 init_world).2 in
  let failed := settle 0 (Rejected e) w1 in
  let done := settle 0 (Resolved r) w1 in
  (downloading failed = Some 0 /\
   promises failed !! 0 = Some (Settled (Rejected e)) /\
   download a o2 failed = (0, failed) /\
   invocations (download a o2 failed).2 = 1) /\
  (downloading done = None /\
   (download a o2 done).1 = 1 /\
   promises (download a o2 done).2 !! 1 = Some Pending /\
   invocations (download a o2 done).2 = 2).
Proof. repeat split. Qed.

(** ** The factory *)

Section FactoryProps.
Variable isEmpty : jsval -> bool.
Variable Route : Type.
Variable Route_parseAll : jsval -> list Route.
Variable DEFAULT_TARGET_FOLDER : string.
Variable DEFAULT_APP_PORT : Z.
Variable cwd : string.
Variable resolve_join : string -> string -> string.

Let make := create isEmpty Route_parseAll DEFAULT_TARGET_FOLDER DEFAULT_APP_PORT
              cwd resolve_join.

(** What the factory returns when all five checks pass. *)
Lemma create_inr (st : settings) (a : app Route) :
  make st = inr a ->
  exists r,
    s_repo st = Some r /\ 2 <= length (split r) /\
    isEmpty (of_str (s_id st)) = false /\
    isEmpty (s_route st) = false /\
    app_id a = show (s_id st) /\
    app_branch a = or_str (s_branch st) "master" /\
    app_port a = or_num (s_port st) DEFAULT_APP_PORT /\
    processName a = app_id a +:+ ":" +:+ pretty (app_port a).
Proof.
  unfold make, create. intros H.
  destruct (isEmpty (of_str (s_id st))) eqn:Hid; [discriminate|].
  destruct (isEmpty (of_str (s_repo st))) eqn:Hrepo; [discriminate|].
  destruct (isEmpty (of_str (s_userAgent st))) eqn:Hua; [discriminate|].
  destruct (isEmpty (s_route st)) eqn:Hroute; [discriminate|].
  destruct (s_repo st) as [r|] eqn:Hr; [|discriminate].
  destruct (Nat.ltb (length (split r)) 2) eqn:Hlen; [discriminate|].
  apply Nat.ltb_ge in Hlen. inversion H; subst; clear H. simpl.
  exists r. repeat split; done.
Qed.

(** C7, as the code has it. When the registration input has no branch and
    the factory returns an app, the branch of the app is ["master"]. *)
Theorem create_default_branch (st : settings) (a : app Route) :
  s_branch st = None ->
  make st = inr a ->
  app_branch a = "master".
Proof.
  intros Hb Hc. apply create_inr in Hc as (r & _ & _ & _ & _ & _ & Hbr & _).
  by rewrite Hbr, Hb.
Qed.

(** The five messages differ, whatever the id. *)
Lemma messages_distinct (id : option string) :
  msg_id <> msg_repo /\ msg_id <> msg_parts /\ msg_id <> msg_route id /\
  msg_id <> msg_userAgent /\ msg_repo <> msg_parts /\
  msg_repo <> msg_route id /\ msg_repo <> msg_userAgent /\
  msg_parts <> msg_route id /\ msg_parts <> msg_userAgent /\
  msg_route id <> msg_userAgent.
Proof. repeat split; discriminate. Qed.

(** C8. With an [isEmpty] that holds of a missing value and of the empty
    string: a missing or empty id, a missing or empty repo, a repo with
    fewer than two segments and a missing or empty route each make the
    factory throw an error of its own, the messages being pairwise
    different; and when id, repo, user agent and route are not empty and
    the repo has at least two segments, the factory returns the app. *)
Theorem create_validation (st : settings) :
  isEmpty Undefined = true ->
  isEmpty (Str "") = true ->
  let missing (o : option string) := o = None \/ o = Some "" in
  let present (o : option string) := isEmpty (of_str o) = false in
  (missing (s_id st) -> make st = inl (Error msg_id)) /\
  (present (s_id st) -> missing (s_repo st) ->
   make st = inl (Error msg_repo)) /\
  (present (s_id st) -> present (s_repo st) -> present (s_userAgent st) ->
   isEmpty (s_route st) = false ->
   (forall r, s_repo st = Some r -> length (split r) < 2) ->
   make st = inl (Error msg_parts)) /\
  (present (s_id st) -> present (s_repo st) -> present (s_userAgent st) ->
   s_route st = Undefined \/ s_route st = Str "" ->
   make st = inl (Error (msg_route (s_id st)))) /\
  (msg_id <> msg_repo /\ msg_id <> msg_parts /\ msg_id <> msg_route (s_id st) /\
   msg_repo <> msg_parts /\ msg_repo <> msg_route (s_id st) /\
   msg_parts <> msg_route (s_id st)) /\
  (present (s_id st) -> present (s_repo st) -> present (s_userAgent st) ->
   isEmpty (s_route st) = false ->
   (forall r, s_repo st = Some r -> 2 <= length (split r)) ->
   exists a, make st = inr a /\ Some (app_id a) = s_id st /\
             Some (r_fullPath (app_repo a)) = s_repo st).
Proof.
  intros Hu He missing present. unfold make, create, present, missing.
  repeat split; try discriminate.
  - intros [-> | ->]; simpl; by rewrite ?Hu, ?He.
  - intros -> [-> | ->]; simpl; by rewrite ?Hu, ?He.
  - intros -> Hrepo -> -> Hlen.
    destruct (s_repo st) as [r|] eqn:Hr; simpl in *; [|congruence].
    rewrite Hrepo. specialize (Hlen r eq_refl).
    apply Nat.ltb_lt in Hlen. by rewrite Hlen.
  - intros -> -> -> [-> | ->]; simpl; by rewrite ?Hu, ?He.
  - intros Hid Hrepo -> -> Hlen. rewrite Hid, Hrepo.
    destruct (s_repo st) as [r|] eqn:Hr; simpl in *; [|congruence].
    specialize (Hlen r eq_refl). apply Nat.ltb_ge in Hlen. rewrite Hlen.
    eexists. split; [reflexivity|]. simpl.
    destruct (s_id st); simpl in *; [done|congruence].
Qed.
End FactoryProps.

(** The sample registration has no branch and gets ["master"]. *)
Lemma create_default_branch_witness :
  s_branch sample_settings = None /\
  sample_create sample_settings = inr sample_app /\
  app_branch sample_app = "master".
Proof.
  split; [reflexivity|]. split; [reflexivity|].
  apply (create_default_branch sample_isEmpty string sample_parseAll ".build"
           3000%Z "/srv" (fun root id => root +:+ "/" +:+ id)
           sample_settings sample_app); reflexivity.
Defined.

(** C7, as stated, fails: the sample registration has no branch and its app
    is not on ["main"]. *)
Lemma create_default_branch_not_main :
  ~ (forall (st : settings) (a : app string),
       s_branch st = None -> sample_create st = inr a -> app_branch a = "main").
Proof.
  intros H. specialize (H sample_settings sample_app eq_refl eq_refl).
  discriminate.
Qed.

(** The sample registration is valid and gives an app. *)
Lemma create_validation_witness :
  sample_isEmpty Undefined = true /\ sample_isEmpty (Str "") = true /\
  exists a, sample_create sample_settings = inr a /\
            Some (app_id a) = s_id sample_settings /\
            Some (r_fullPath (app_repo a)) = s_repo sample_settings.
Proof.
  split; [reflexivity|]. split; [reflexivity|].
  apply (create_validation sample_isEmpty string sample_parseAll ".build"
           3000%Z "/srv" (fun root id => root +:+ "/" +:+ id)
           sample_settings eq_refl eq_refl).
  - reflexivity.
  - reflexivity.
  - reflexivity.
  - reflexivity.
  - intros r [= <-]. simpl. lia.
Defined.

(** ** The lifecycle *)

Lemma trace_log (e : event) (w : world) : trace (log e w) = trace w ++ [e].
Proof. reflexivity. Qed.

Lemma scan_order_app (installed : bool) (name cmd : string) (s : phase)
    (evs1 evs2 : list event) :
  scan_order installed name cmd s (evs1 ++ evs2) =
  match scan_order installed name cmd s evs1 with
  | Some s' => scan_order installed name cmd s' evs2
  | None => None
  end.
Proof.
  revert s. induction evs1 as [|e evs1 IH]; intros s; simpl; [done|].
  destruct (step_order installed name cmd s e); [apply IH|done].
Qed.

(** No shell command among a few listed events. *)
Ltac no_exec :=
  rewrite ?not_elem_of_cons; repeat split;
  try discriminate; try apply not_elem_of_nil.

Section StopProps.
Context {Route : Type}.
Variable pm2_isInstalled : bool.
Variable o_connect : nat -> outcome unit.
Variable o_delete : nat -> outcome unit.

Local Abbreviation stop :=
  (@stop Route pm2_isInstalled o_connect o_delete).

(** The three ways [stop] ends when pm2 is installed, and the one way when
    it is not. *)
Lemma stop_cases (a : app Route) (w : world) :
  let n := length (trace w) in
  stop a w =
  if pm2_isInstalled
  then match o_connect n with
       | Rejected e => Some (Rejected e, log EvPm2Connect w)
       | Resolved _ =>
           match o_delete (S n) with
           | Rejected e =>
               Some (Rejected e,
                     log (EvPm2Delete (processName a)) (log EvPm2Connect w))
           | Resolved _ =>
               Some (Resolved (stopped_ok a),
                     log (EvStopResolved (processName a))
                       (log (EvPm2Delete (processName a)) (log EvPm2Connect w)))
           end
       end
  else Some (Resolved (stopped_ok a), log (EvStopResolved (processName a)) w).
Proof.
  unfold stop, bind, ask, emit, ret. simpl.
  destruct pm2_isInstalled; simpl; [|done].
  destruct (o_connect (length (trace w))); simpl; [|done].
  rewrite length_app. simpl. rewrite Nat.add_1_r.
  destruct (o_delete (S (length (trace w)))); done.
Qed.

(** [stop] always settles; it adds only its own events, none of them a
    shell command, and when it resolves the events end the stop of the
    named process. *)
Lemma stop_trace (a : app Route) (w : world) :
  exists o w' evs,
    stop a w = Some (o, w') /\ trace w' = trace w ++ evs /\
    (forall cmd, EvShellExec cmd ∉ evs) /\
    (forall s, is_Some (scan_order pm2_isInstalled (processName a)
                          (start_command a) s evs)) /\
    (forall r s, o = Resolved r ->
       scan_order pm2_isInstalled (processName a) (start_command a) s evs
       = Some Stopped).
Proof.
  rewrite stop_cases. simpl.
  destruct pm2_isInstalled.
  - destruct (o_connect (length (trace w))) as [u|e].
    + destruct (o_delete (S (length (trace w)))) as [u'|e].
      * eexists _, _, [EvPm2Connect; EvPm2Delete (processName a);
                       EvStopResolved (processName a)].
        split; [done|]. split; [by rewrite !trace_log, <- !app_assoc|].
        split; [intros cmd; no_exec|].
        simpl. rewrite String.eqb_refl. split; intros; eauto.
      * eexists _, _, [EvPm2Connect; EvPm2Delete (processName a)].
        split; [done|]. split; [by rewrite !trace_log, <- !app_assoc|].
        split; [intros cmd; no_exec|].
        simpl. rewrite String.eqb_refl. split; intros; [eauto|done].
    + eexists _, _, [EvPm2Connect].
      split; [done|]. split; [done|].
      split; [intros cmd; no_exec|]. simpl. split; intros; [eauto|done].
  - eexists _, _, [EvStopResolved (processName a)].
    split; [done|]. split; [done|].
    split; [intros cmd; no_exec|].
    simpl. rewrite String.eqb_refl. split; intros; eauto.
Qed.

(** C6, as the code has it. [stop] resolves, with [{id, stopped:true}],
    exactly when pm2 is not installed, in which case it calls nothing, or
    pm2 is installed and both the connect and the delete of the named
    process resolve, in this order; when the connect or the delete rejects,
    [stop] rejects with the same error. *)
Theorem stop_outcome (a : app Route) (w : world) :
  let n := length (trace w) in
  (pm2_isInstalled = false ->
   stop a w = Some (Resolved (stopped_ok a),
                    log (EvStopResolved (processName a)) w)) /\
  (pm2_isInstalled = true ->
   (forall u1 u2, o_connect n = Resolved u1 -> o_delete (S n) = Resolved u2 ->
      exists w', stop a w = Some (Resolved (stopped_ok a), w') /\
        trace w' = trace w ++ [EvPm2Connect; EvPm2Delete (processName a);
                               EvStopResolved (processName a)]) /\
   (forall e, o_connect n = Rejected e ->
      stop a w = Some (Rejected e, log EvPm2Connect w)) /\
   (forall u e, o_connect n = Resolved u -> o_delete (S n) = Rejected e ->
      stop a w = Some (Rejected e,
                       log (EvPm2Delete (processName a)) (log EvPm2Connect w)))) /\
  (forall r w', stop a w = Some (Resolved r, w') -> r = stopped_ok a).
Proof.
  intros n. rewrite stop_cases. fold n. split; [|split].
  - by intros ->.
  - intros ->. split; [|split].
    + intros u1 u2 -> ->. eexists. split; [done|].
      by rewrite !trace_log, <- !app_assoc.
    + by intros e ->.
    + by intros u e -> ->.
  - intros r w'. destruct pm2_isInstalled.
    + destruct (o_connect n); [|done]. destruct (o_delete (S n)); [|done].
      congruence.
    + congruence.
Qed.
End StopProps.

(** With pm2 installed and both calls resolving, [stop] resolves after the
    connect and the delete. *)
Lemma stop_outcome_witness :
  let ok := fun _ : nat => Resolved tt in
  exists w', stop true ok ok sample_app init_world
             = Some (Resolved (stopped_ok sample_app), w') /\
    trace w' = [EvPm2Connect; EvPm2Delete "svc-a:3000"; EvStopResolved "svc-a:3000"].
Proof.
  intros ok.
  exact (proj1 (proj1 (proj2 (stop_outcome true ok ok sample_app init_world))
                  eq_refl) tt tt eq_refl eq_refl).
Defined.

(** C6, as stated, fails: with pm2 installed and a connect that rejects,
    [stop] rejects. *)
Lemma stop_can_reject :
  ~ (forall (installed : bool) (o_connect o_delete : nat -> outcome unit)
            (a : app string) (w : world),
       exists w', stop installed o_connect o_delete a w
                  = Some (Resolved (stopped_ok a), w')).
Proof.
  intros H.
  destruct (H true (fun _ => Rejected (Error "connect failed"))
              (fun _ => Resolved tt) sample_app init_world) as [w' Hw'].
  discriminate.
Qed.

Section LifecycleProps.
Context {Route : Type}.
Variable pm2_isInstalled : bool.
Variable o_version : nat -> outcome version_info.
Variable o_download : nat -> outcome download_result.
Variable o_connect : nat -> outcome unit.
Variable o_delete : nat -> outcome unit.
Variable appUpdate :
  string -> string -> M version_info -> (download_options -> M download_result) ->
  M (start_result Route) -> update_options -> M update_result.

Local Abbreviation stop :=
  (@stop Route pm2_isInstalled o_connect o_delete).
Local Abbreviation start :=
  (@start Route pm2_isInstalled o_version o_download o_connect o_delete
   appUpdate).
Local Abbreviation update :=
  (@update Route pm2_isInstalled o_version o_download o_connect o_delete
   appUpdate).
Local Abbreviation updating :=
  (@updating Route pm2_isInstalled o_version o_download o_connect o_delete
   appUpdate).
Local Abbreviation restart :=
  (@restart Route pm2_isInstalled o_version o_download o_connect o_delete
   appUpdate).

Lemma start_unfold (n : nat) (a : app Route) (w : world) :
  start (S n) a w =
  match update n a {| u_start := Some false |} w with
  | Some (Resolved status, w1) =>
      match stop a w1 with
      | Some (Resolved _, w2) =>
          if exists_not_false status
          then Some (Resolved (started_result a status true),
                     log (EvShellCd (WORKING_DIRECTORY a))
                       (log (EvShellExec (start_command a))
                          (log (EvShellCd (app_localFolder a)) w2)))
          else Some (Resolved (started_result a status false),
                     log (EvLogWarn (warn_missing a)) w2)
      | Some (Rejected e, w2) => Some (Rejected e, w2)
      | None => None
      end
  | Some (Rejected e, w1) => Some (Rejected e, w1)
  | None => None
  end.
Proof.
  change (start (S n) a w) with
    (bind (update n a {| u_start := Some false |})
       (fun status =>
          stop a ;;;
          (if exists_not_false status
           then emit (EvShellCd (app_localFolder a)) ;;;
                emit (EvShellExec (start_command a)) ;;;
                emit (EvShellCd (WORKING_DIRECTORY a)) ;;;
                ret (started_result a status true)
           else emit (EvLogWarn (warn_missing a)) ;;;
                ret (started_result a status false))) w).
  unfold bind.
  destruct (update n a {| u_start := Some false |} w) as [[[status|e] w1]|];
    [|done|done].
  destruct (stop a w1) as [[[r|e] w2]|]; [|done|done].
  by destruct (exists_not_false status).
Qed.

Lemma update_unfold (n : nat) (a : app Route) (options : update_options)
    (w : world) :
  update (S n) a options w =
  match updating n a options w with
  | Some (Resolved result, w1) => Some (Resolved result, alert a result w1)
  | Some (Rejected e, w1) => Some (Rejected e, w1)
  | None => None
  end.
Proof. reflexivity. Qed.

Lemma alert_trace (a : app Route) (result : update_result) (w : world) :
  trace (alert a result w) =
  trace w ++
  match publishEvent a with
  | Some _ =>
      if ur_updated result
      then [EvPublish "app:updated" (updated_payload a result)]
      else []
  | None => []
  end.
Proof.
  unfold alert. destruct (publishEvent a); [|by rewrite app_nil_r].
  destruct (ur_updated result); [done|by rewrite app_nil_r].
Qed.

(** C4, as the code has it. When the update that [start] begins with
    resolves with [exists:false], [start] goes on to [stop]: if [stop]
    resolves, [start] resolves with [started:false] and [exists:false]
    after a warning; if [stop] rejects, [start] rejects with the same
    error. Either way [start] settles and runs no shell command after the
    update, so pm2 is not told to start the process. *)
Theorem start_missing_remote (n : nat) (a : app Route) (w w1 : world)
    (status : update_result) :
  update n a {| u_start := Some false |} w = Some (Resolved status, w1) ->
  ur_exists status = Some false ->
  (forall r w2, stop a w1 = Some (Resolved r, w2) ->
     start (S n) a w = Some (Resolved (started_result a status false),
                             log (EvLogWarn (warn_missing a)) w2)) /\
  (forall e w2, stop a w1 = Some (Rejected e, w2) ->
     start (S n) a w = Some (Rejected e, w2)) /\
  (exists o w' evs, start (S n) a w = Some (o, w') /\
     trace w' = trace w1 ++ evs /\ forall cmd, EvShellExec cmd ∉ evs).
Proof.
  intros Hu Hex. rewrite start_unfold, Hu.
  assert (Hnf : exists_not_false status = false).
  { unfold exists_not_false. by rewrite Hex. }
  rewrite Hnf. split; [|split].
  - by intros r w2 ->.
  - by intros e w2 ->.
  - destruct (stop_trace pm2_isInstalled o_connect o_delete a w1)
      as (o & w2 & evs & Hs & Htr & Hno & _).
    rewrite Hs. destruct o as [r|e].
    + eexists _, _, (evs ++ [EvLogWarn (warn_missing a)]).
      split; [done|]. split; [by rewrite trace_log, Htr, app_assoc|].
      intros cmd. rewrite not_elem_of_app. split; [apply Hno|no_exec].
    + by eexists _, _, evs.
Qed.

(** C5. With a publish callback, [update] settles as [appUpdate] does, and
    after a result that has [updated] set it calls the callback once, with
    ["app:updated"] and [{id, version}]; after a result that has [updated]
    unset, or a rejection, it calls nothing. *)
Theorem update_publishes (n : nat) (a : app Route) (options : update_options)
    (w : world) (f : publish_fn) :
  publishEvent a = Some f ->
  (forall result w1, updating n a options w = Some (Resolved result, w1) ->
     exists w', update (S n) a options w = Some (Resolved result, w') /\
       trace w' = trace w1 ++
         (if ur_updated result
          then [EvPublish "app:updated"
                  {| pl_id := app_id a; pl_version := ur_version result |}]
          else [])) /\
  (forall e w1, updating n a options w = Some (Rejected e, w1) ->
     update (S n) a options w = Some (Rejected e, w1)).
Proof.
  intros Hf. rewrite update_unfold. split.
  - intros result w1 ->. eexists. split; [done|].
    by rewrite alert_trace, Hf.
  - by intros e w1 ->.
Qed.

(** Without a publish callback, for any updater. *)
Lemma restart_no_callback (n : nat) (a : app Route)
    (options : update_options) (w : world) :
  publishEvent a = None ->
  (forall r w', restart n a w <> Some (Resolved r, w')) /\
  (forall o w1, start n a w = Some (o, w1) ->
     exists e, restart n a w = Some (Rejected e, w1) /\
               forall r, o = Resolved r ->
                         e = TypeError "publishEvent is not a function") /\
  update (S n) a options w = updating n a options w.
Proof.
  intros Hf. unfold restart, bind.
  rewrite Hf. split; [|split].
  - intros r w'. by destruct (start n a w) as [[[r'|e] w1]|].
  - intros o w1 ->. destruct o as [r|e].
    + eexists. split; [done|]. done.
    + eexists. split; [done|]. done.
  - rewrite update_unfold. unfold alert. rewrite Hf.
    by destruct (updating n a options w) as [[[r|e] w1]|].
Qed.
End LifecycleProps.

(** ** The lifecycle with the updater of the spec *)

Lemma scan_order_neutral (installed : bool) (name cmd : string) (s : phase)
    (evs : list event) :
  forallb neutral evs = true -> scan_order installed name cmd s evs = Some s.
Proof.
  induction evs as [|e evs IH]; simpl; [done|].
  intros [He Hevs]%andb_prop. destruct e; try discriminate; simpl; by apply IH.
Qed.

Section OrderProps.
Context {Route : Type} (installed : bool) (a : app Route).

Lemma stop_before_start_neutral (evs : list event) :
  forallb neutral evs = true -> stop_before_start installed a evs.
Proof. intros H s. rewrite scan_order_neutral; eauto. Qed.

Lemma stop_before_start_app (evs1 evs2 : list event) :
  stop_before_start installed a evs1 ->
  stop_before_start installed a evs2 ->
  stop_before_start installed a (evs1 ++ evs2).
Proof.
  intros H1 H2 s. rewrite scan_order_app.
  destruct (H1 s) as [s' ->]. apply H2.
Qed.

(** After a stop that resolved, the start command is in order. *)
Lemma stop_before_start_command (evs : list event) :
  (forall s, scan_order installed (processName a) (start_command a) s evs
             = Some Stopped) ->
  stop_before_start installed a
    (evs ++ [EvShellCd (app_localFolder a); EvShellExec (start_command a);
             EvShellCd (WORKING_DIRECTORY a)]).
Proof.
  intros H s. rewrite scan_order_app, H. simpl.
  rewrite String.eqb_refl. eauto.
Qed.
End OrderProps.

Section SpecUpdater.
Context {Route : Type}.
Variable pm2_isInstalled : bool.
Variable o_version : nat -> outcome version_info.
Variable o_download : nat -> outcome download_result.
Variable o_connect : nat -> outcome unit.
Variable o_delete : nat -> outcome unit.

Local Abbreviation stop :=
  (@stop Route pm2_isInstalled o_connect o_delete).
Local Abbreviation start :=
  (@start Route pm2_isInstalled o_version o_download o_connect o_delete
   appUpdate_spec).
Local Abbreviation update :=
  (@update Route pm2_isInstalled o_version o_download o_connect o_delete
   appUpdate_spec).
Local Abbreviation updating :=
  (@updating Route pm2_isInstalled o_version o_download o_connect o_delete
   appUpdate_spec).

Local Abbreviation in_order :=
  (in_order pm2_isInstalled).

Lemma in_order_ret {A} (a : app Route) (x : A) : in_order a (ret x).
Proof.
  intros w o w' [= <- <-]. exists []. split; [by rewrite app_nil_r|].
  by apply stop_before_start_neutral.
Qed.

Lemma in_order_bind {A B} (a : app Route) (m : M A) (k : A -> M B) :
  in_order a m -> (forall x, in_order a (k x)) -> in_order a (bind m k).
Proof.
  intros Hm Hk w o w' H. unfold bind in H.
  destruct (m w) as [[[x|e] w1]|] eqn:Hmw; [| |done].
  - destruct (Hm _ _ _ Hmw) as (evs1 & Ht1 & Ho1).
    destruct (Hk x _ _ _ H) as (evs2 & Ht2 & Ho2).
    exists (evs1 ++ evs2). split; [by rewrite Ht2, Ht1, app_assoc|].
    by apply stop_before_start_app.
  - inversion H; subst. eauto.
Qed.

Lemma in_order_version (a : app Route) : in_order a (version o_version a).
Proof.
  intros w o w' [= <- <-]. exists [EvVersion (app_id a)]. split; [done|].
  by apply stop_before_start_neutral.
Qed.

Lemma settle_trace (p : nat) (o : outcome download_result) (w : world) :
  trace (settle p o w) = trace w.
Proof.
  unfold settle. destruct (promises w !! p) as [[|o']|]; try done.
  by destruct o.
Qed.

Lemma in_order_download (a : app Route) (options : download_options) :
  in_order a (download_await o_download a options).
Proof.
  intros w o w' H. unfold download_await in H.
  assert (Hd : exists evs, trace (download a options w).2 = trace w ++ evs /\
                           forallb neutral evs = true).
  { unfold download. destruct (downloading w); simpl.
    - exists []. by rewrite app_nil_r.
    - by eexists [_]. }
  destruct (download a options w) as [p w1]. simpl in Hd.
  destruct Hd as (evs & Ht & Hn). exists evs.
  split; [|by apply stop_before_start_neutral].
  destruct (promises w1 !! p) as [[|o']|]; inversion H; subst;
    by rewrite ?settle_trace.
Qed.

Lemma in_order_updating (n : nat) (a : app Route) (options : update_options) :
  in_order a (start n a) -> in_order a (updating n a options).
Proof.
  intros Hstart. unfold updating. unfold appUpdate_spec at 1.
  apply in_order_bind; [apply in_order_version|]. intros v.
  destruct (negb (v_exists v)); [apply in_order_ret|].
  destruct (needs_update v); [|apply in_order_ret].
  apply in_order_bind; [apply in_order_download|]. intros _.
  destruct (start_enabled options); [|apply in_order_ret].
  apply in_order_bind; [apply Hstart|]. intros s. apply in_order_ret.
Qed.

Lemma in_order_update (n : nat) (a : app Route) (options : update_options) :
  in_order a (start n a) -> in_order a (update (S n) a options).
Proof.
  intros Hstart w o w' H. rewrite update_unfold in H.
  pose proof (in_order_updating n a options Hstart w) as Hu.
  destruct (updating n a options w) as [[[r|e] w1]|] eqn:Hupd; [| |done].
  - inversion H; subst. destruct (Hu (Resolved r) w1 eq_refl) as (evs & Ht & Ho).
    eexists. split; [by rewrite alert_trace, Ht, <- app_assoc|].
    apply stop_before_start_app; [done|].
    apply stop_before_start_neutral.
    destruct (publishEvent a); [|done]. by destruct (ur_updated r).
  - inversion H; subst. by eapply Hu.
Qed.

Lemma in_order_start (n : nat) (a : app Route) :
  in_order a (update n a {| u_start := Some false |}) ->
  in_order a (start (S n) a).
Proof.
  intros Hupdate w o w' H. rewrite start_unfold in H.
  destruct (update n a {| u_start := Some false |} w)
    as [[[status|e] w1]|] eqn:Hu; [| |done].
  - destruct (Hupdate _ _ _ Hu) as (evs1 & Ht1 & Ho1).
    destruct (stop_trace pm2_isInstalled o_connect o_delete a w1)
      as (os & w2 & evs2 & Hs & Ht2 & _ & Ho2 & Hstopped).
    rewrite Hs in H. destruct os as [r|e].
    + destruct (exists_not_false status); inversion H; subst.
      * eexists. split.
        { rewrite !trace_log, Ht2, Ht1, <- !app_assoc. done. }
        apply stop_before_start_app; [done|].
        apply (stop_before_start_command pm2_isInstalled a evs2).
        intros s. by eapply Hstopped.
      * eexists. split.
        { rewrite !trace_log, Ht2, Ht1, <- !app_assoc. done. }
        apply stop_before_start_app; [done|].
        apply stop_before_start_app; [done|].
        by apply stop_before_start_neutral.
    + inversion H; subst. exists (evs1 ++ evs2).
      split; [by rewrite Ht2, Ht1, app_assoc|].
      by apply stop_before_start_app.
  - inversion H; subst. eauto.
Qed.

(** Both [start] and [update] keep the order, for every fuel. *)
Lemma in_order_both (n : nat) (a : app Route) :
  in_order a (start n a) /\ forall options, in_order a (update n a options).
Proof.
  induction n as [|n [IHs IHu]].
  - split; [|intros options]; intros w o w' H; discriminate.
  - split.
    + by apply in_order_start.
    + intros options. by apply in_order_update.
Qed.

(** With enough fuel, [start] and [update] settle. *)
Lemma settles_ret {A} (x : A) : settles (ret x).
Proof. intros w. unfold ret. eauto. Qed.

Lemma settles_bind {A B} (m : M A) (k : A -> M B) :
  settles m -> (forall x, settles (k x)) -> settles (bind m k).
Proof.
  intros Hm Hk w. unfold bind. destruct (Hm w) as (o & w1 & ->).
  destruct o as [x|e]; [apply Hk|eauto].
Qed.

Lemma settles_download (a : app Route) (options : download_options) :
  settles (download_await o_download a options).
Proof.
  intros w. unfold download_await. destruct (download a options w) as [p w1].
  destruct (promises w1 !! p) as [[|o]|]; eauto.
Qed.

Lemma settles_stop (a : app Route) : settles (stop a).
Proof.
  intros w.
  destruct (stop_trace pm2_isInstalled o_connect o_delete a w)
    as (o & w' & evs & Hs & _). eauto.
Qed.

Lemma settles_updating (n : nat) (a : app Route) (options : update_options) :
  (start_enabled options = true -> settles (start n a)) ->
  settles (updating n a options).
Proof.
  intros Hstart. unfold updating. unfold appUpdate_spec at 1.
  apply settles_bind; [intros w; unfold version, ask; eauto|]. intros v.
  destruct (negb (v_exists v)); [apply settles_ret|].
  destruct (needs_update v); [|apply settles_ret].
  apply settles_bind; [apply settles_download|]. intros _.
  destruct (start_enabled options); [|apply settles_ret].
  apply settles_bind; [by apply Hstart|]. intros s. apply settles_ret.
Qed.

Lemma settles_update (n : nat) (a : app Route) (options : update_options) :
  (start_enabled options = true -> settles (start n a)) ->
  settles (update (S n) a options).
Proof.
  intros Hstart w. rewrite update_unfold.
  destruct (settles_updating n a options Hstart w) as (o & w' & Hu).
  rewrite Hu. destruct o; eauto.
Qed.

Lemma start_settles (n : nat) (a : app Route) : settles (start (S (S n)) a).
Proof.
  intros w. rewrite start_unfold.
  destruct (settles_update n a {| u_start := Some false |}) with (w := w)
    as (o & w1 & Hu); [done|].
  rewrite Hu. destruct o as [status|e]; [|eauto].
  destruct (settles_stop a w1) as (os & w2 & Hs).
  rewrite Hs. destruct os; [|eauto].
  destruct (exists_not_false status); eauto.
Qed.

Lemma update_settles (n : nat) (a : app Route) (options : update_options) :
  settles (update (S (S (S n))) a options).
Proof. apply settles_update. intros _. apply start_settles. Qed.
End SpecUpdater.

(** C3. For any updater, a [start] that issues the pm2 start command has
    first awaited its update and then [stop], which resolved, and the
    command comes right after the trace that [stop] left. With the updater
    of the spec, in everything that [start] or [update] adds to the trace
    the start command of the app comes only after [stop] has resolved for
    the process name since the previous start command, and, with pm2
    installed, [stop] resolves only after the delete of that process. *)
Theorem stop_precedes_start {Route : Type} (installed : bool)
    (o_version : nat -> outcome version_info)
    (o_download : nat -> outcome download_result)
    (o_connect o_delete : nat -> outcome unit)
    (n : nat) (a : app Route) (options : update_options) :
  (forall appUpdate w r w',
     start installed o_version o_download o_connect o_delete appUpdate (S n) a w
     = Some (Resolved r, w') ->
     sr_started r = true ->
     exists status w1 sres w2,
       update installed o_version o_download o_connect o_delete appUpdate n a
         {| u_start := Some false |} w = Some (Resolved status, w1) /\
       stop installed o_connect o_delete a w1 = Some (Resolved sres, w2) /\
       trace w' = trace w2 ++ [EvShellCd (app_localFolder a);
                               EvShellExec (start_command a);
                               EvShellCd (WORKING_DIRECTORY a)]) /\
  in_order installed a
    (start installed o_version o_download o_connect o_delete appUpdate_spec n a) /\
  in_order installed a
    (update installed o_version o_download o_connect o_delete appUpdate_spec n a
       options).
Proof.
  split; [|split].
  - intros appUpdate w r w' H Hstarted. rewrite start_unfold in H.
    destruct (update _ _ _ _ _ _ n a _ w) as [[[status|e] w1]|]; [| |done].
    + destruct (stop _ _ _ a w1) as [[[sres|e] w2]|] eqn:Hs; [| |done].
      * destruct (exists_not_false status); inversion H; subst.
        -- exists status, w1, sres, w2. split; [done|]. split; [done|].
           by rewrite !trace_log, <- !app_assoc.
        -- discriminate.
      * discriminate.
    + discriminate.
  - apply in_order_both.
  - apply in_order_both.
Qed.

(** An update from 1.2.0 to 1.3.0 with pm2 installed: the start command is
    issued, after the stop. *)
Lemma stop_precedes_start_witness :
  exists o w',
    update true (versions "1.2.0" "1.3.0") downloaded fine fine appUpdate_spec 3
      sample_app {| u_start := None |} init_world = Some (o, w') /\
    EvShellExec (start_command sample_app) ∈ trace w' /\
    exists evs, trace w' = trace init_world ++ evs /\
                stop_before_start true sample_app evs.
Proof.
  eexists _, _. split; [vm_compute; reflexivity|]. split.
  - apply list_elem_of_In. vm_compute. tauto.
  - eapply (proj2 (proj2 (stop_precedes_start true (versions "1.2.0" "1.3.0")
             downloaded fine fine 3 sample_app {| u_start := None |}))
             init_world).
    vm_compute; reflexivity.
Defined.

(** C10. Without a publish callback, [restart] never resolves, whatever the
    updater: once [start] has settled, [restart] rejects, with the
    [TypeError] of the call of the absent callback when [start] resolved;
    whereas [update] settles exactly as [appUpdate] does and leaves the
    world as [appUpdate] left it. With the updater of the spec and fuel for
    one round, [restart] does reject. *)
Theorem restart_without_callback {Route : Type} (installed : bool)
    (o_version : nat -> outcome version_info)
    (o_download : nat -> outcome download_result)
    (o_connect o_delete : nat -> outcome unit)
    (a : app Route) (options : update_options) (w : world) :
  publishEvent a = None ->
  (forall appUpdate n,
     (forall r w',
        restart installed o_version o_download o_connect o_delete appUpdate n a w
        <> Some (Resolved r, w')) /\
     (forall o w1,
        start installed o_version o_download o_connect o_delete appUpdate n a w
        = Some (o, w1) ->
        exists e,
          restart installed o_version o_download o_connect o_delete appUpdate n a w
          = Some (Rejected e, w1) /\
          forall r, o = Resolved r ->
                    e = TypeError "publishEvent is not a function") /\
     update installed o_version o_download o_connect o_delete appUpdate (S n) a
       options w
     = updating installed o_version o_download o_connect o_delete appUpdate n a
         options w) /\
  (forall n, exists e w',
     restart installed o_version o_download o_connect o_delete appUpdate_spec
       (S (S n)) a w = Some (Rejected e, w')).
Proof.
  intros Hf. split.
  - intros appUpdate n. by apply restart_no_callback.
  - intros n.
    destruct (start_settles installed o_version o_download o_connect o_delete
                n a w) as (o & w1 & Hs).
    destruct (restart_no_callback installed o_version o_download o_connect
                o_delete appUpdate_spec (S (S n)) a options w Hf)
      as (_ & Hrej & _).
    destruct (Hrej o w1 Hs) as (e & He & _). eauto.
Qed.

(** The sample app has no callback: its restart rejects and its update
    resolves. *)
Lemma restart_without_callback_witness :
  publishEvent sample_app = None /\
  (exists e w',
     restart false version_missing downloaded fine fine appUpdate_spec 2
       sample_app init_world = Some (Rejected e, w')) /\
  exists r w',
    update false (versions "1.2.0" "1.3.0") downloaded fine fine appUpdate_spec 1
      sample_app {| u_start := Some false |} init_world
    = Some (Resolved r, w') /\ ur_updated r = true.
Proof.
  split; [reflexivity|]. split.
  - apply (proj2 (restart_without_callback false version_missing downloaded
                    fine fine sample_app {| u_start := None |} init_world
                    eq_refl) 0).
  - eexists _, _. split; [vm_compute; reflexivity|reflexivity].
Defined.

(** With pm2 not installed and no remote manifest, [start] resolves with
    [started:false]. *)
Lemma start_missing_remote_witness :
  exists status w1 w',
    update false version_missing downloaded fine fine appUpdate_spec 1
      sample_app {| u_start := Some false |} init_world
    = Some (Resolved status, w1) /\
    ur_exists status = Some false /\
    start false version_missing downloaded fine fine appUpdate_spec 2
      sample_app init_world
    = Some (Resolved (started_result sample_app status false), w').
Proof.
  eexists _, _, _. split; [vm_compute; reflexivity|]. split; [reflexivity|].
  eapply (proj1 (start_missing_remote false version_missing downloaded fine
                   fine appUpdate_spec 1 sample_app init_world _ _
                   ltac:(vm_compute; reflexivity) eq_refl)).
  vm_compute; reflexivity.
Defined.

(** C4, as stated, fails: with no remote manifest, pm2 installed and a
    connect that rejects, [start] rejects. *)
Lemma start_missing_remote_can_reject :
  ~ (forall (installed : bool) (o_version : nat -> outcome version_info)
            (o_download : nat -> outcome download_result)
            (o_connect o_delete : nat -> outcome unit)
            (n : nat) (a : app string) (w w1 : world) (status : update_result),
       update installed o_version o_download o_connect o_delete appUpdate_spec
         n a {| u_start := Some false |} w = Some (Resolved status, w1) ->
       ur_exists status = Some false ->
       exists r w',
         start installed o_version o_download o_connect o_delete appUpdate_spec
           (S n) a w = Some (Resolved r, w') /\
         sr_started r = false /\ sr_exists r = false).
Proof.
  intros H.
  destruct (H true version_missing downloaded connect_fails fine 1 sample_app
              init_world _ _ eq_refl eq_refl) as (r & w' & Hs & _).
  vm_compute in Hs. discriminate.
Qed.

(** An update from 1.2.0 to 1.3.0 publishes once. *)
Lemma update_publishes_witness :
  exists f result w',
    publishEvent sample_app_pub = Some f /\
    update false (versions "1.2.0" "1.3.0") downloaded fine fine appUpdate_spec 1
      sample_app_pub {| u_start := Some false |} init_world
    = Some (Resolved result, w') /\
    trace w' = [EvVersion "svc-a"; EvAppDownload "svc-a" no_options;
                EvPublish "app:updated"
                  {| pl_id := "svc-a"; pl_version := Some "1.3.0" |}].
Proof.
  eexists _, _.
  destruct (proj1 (update_publishes false (versions "1.2.0" "1.3.0") downloaded
                     fine fine appUpdate_spec 0 sample_app_pub
                     {| u_start := Some false |} init_world _ eq_refl)
              _ _ ltac:(vm_compute; reflexivity)) as (w' & Hu & Ht).
  exists w'. split; [reflexivity|]. split; [exact Hu|exact Ht].
Defined.

(** ** The dispatcher *)

Lemma split_not_nil (s : string) : split s <> [].
Proof.
  induction s as [|c s IH]; simpl; [done|].
  destruct (Ascii.eqb c "/"); [done|]. by destruct (split s).
Qed.

Lemma split_last (s : string) : exists seg, R_last (split s) = Some seg.
Proof. apply last_is_Some, split_not_nil. Qed.

Lemma ref_last_segment (r : string) : ref_last (Some r) = Some (last_segment r).
Proof.
  unfold ref_last, last_segment. destruct (String.eqb_spec r "") as [->|_].
  - reflexivity.
  - destruct (split_last r) as [seg ->]. reflexivity.
Qed.

(** C9, as the code has it. The branch of a notification is the last path
    segment of [ref] when [ref] is present and that segment is not empty,
    and the default branch of the repository otherwise. [post] calls
    [update()], with no options, on each registered app whose repo name is
    the full name of the repository and whose branch is that branch, in the
    order of registration, and then answers 200 without looking at what the
    updates do; with no matching app it only answers 200. *)
Theorem post_dispatch {Route : Type} (apps : list (app Route))
    (data : notification) :
  post_branch data =
    match n_ref data with
    | Some r => if String.eqb (last_segment r) "" then n_default_branch data
                else last_segment r
    | None => n_default_branch data
    end /\
  (forall a, In a (matchingApps apps data) <->
             In a apps /\ r_name (app_repo a) = n_full_name data /\
             app_branch a = post_branch data) /\
  (exists logs,
     post apps data =
       logs ++ map (fun a => UpdateCalled a {| u_start := None |})
                 (matchingApps apps data) ++ [Respond 200] /\
     forall e, In e logs -> exists msg, e = LogInfo msg) /\
  (matchingApps apps data = [] -> post apps data = [Respond 200]).
Proof.
  split; [|split; [|split]].
  - unfold post_branch. destruct (n_ref data) as [r|]; [|done].
    rewrite ref_last_segment. reflexivity.
  - intros a. unfold matchingApps, isRepoMatch. rewrite filter_In.
    rewrite andb_true_iff, !String.eqb_eq. tauto.
  - unfold post. destruct (Nat.ltb 0 (length (matchingApps apps data))) eqn:Hl.
    + eexists [_]. split; [reflexivity|].
      intros e [<-|[]]. eauto.
    + exists []. split; [|intros e []].
      apply Nat.ltb_ge in Hl.
      destruct (matchingApps apps data); [done|simpl in Hl; lia].
  - intros Hm. unfold post. by rewrite Hm.
Qed.

(** C9, as stated, fails: for a ref that ends with a slash the last path
    segment is empty, and [post] updates the apps on the default branch. *)
Lemma post_branch_trailing_slash :
  ~ (forall (apps : list (app string)) (data : notification),
       matchingApps apps data = contract_matching apps data).
Proof.
  intros H. specialize (H [sample_app] trailing_slash_push). discriminate.
Qed.

(** * Further properties *)

(** ** Strings *)

Lemma append_cons (c : ascii) (s t : string) :
  String c s +:+ t = String c (s +:+ t).
Proof. reflexivity. Qed.

Lemma append_nil_r (s : string) : s +:+ "" = s.
Proof. induction s as [|c s IH]; [done|]. by rewrite append_cons, IH. Qed.

Lemma append_assoc (s1 s2 s3 : string) :
  (s1 +:+ s2) +:+ s3 = s1 +:+ (s2 +:+ s3).
Proof.
  induction s1 as [|c s1 IH]; [done|]. by rewrite !append_cons, IH.
Qed.

Lemma split_length (s : string) : length (split s) = S (count_slash s).
Proof.
  induction s as [|c s IH]; simpl; [done|].
  destruct (Ascii.eqb c "/"); simpl; [by rewrite IH|].
  destruct (split s); simpl in *; [done|done].
Qed.

Lemma has_slash_split (s : string) :
  has_slash s = negb (Nat.ltb (length (split s)) 2).
Proof.
  rewrite split_length. unfold has_slash. by destruct (count_slash s).
Qed.

(** Joining the segments gives the string back. *)
Lemma join_split (s : string) : join (split s) = s.
Proof.
  unfold join. induction s as [|c s IH]; simpl; [done|].
  destruct (Ascii.eqb_spec c "/") as [->|_].
  - pose proof (split_not_nil s) as Hne.
    destruct (split s) as [|seg segs]; [congruence|]. simpl in *. rewrite IH.
    reflexivity.
  - destruct (split s) as [|seg segs]; [simpl in *; by subst|].
    destruct segs; simpl in *; rewrite <- IH; reflexivity.
Qed.

(** No segment has a slash. *)
Lemma split_no_slash (s seg : string) :
  In seg (split s) -> count_slash seg = 0.
Proof.
  revert seg. induction s as [|c s IH]; simpl; intros seg Hin.
  - by destruct Hin as [<-|[]].
  - destruct (Ascii.eqb c "/") eqn:Hc.
    + destruct Hin as [<-|Hin]; [done|by apply IH].
    + destruct (split s) as [|seg' segs].
      * destruct Hin as [<-|[]]. simpl. by rewrite Hc.
      * destruct Hin as [<-|Hin].
        -- simpl. rewrite Hc. apply IH. by left.
        -- apply IH. by right.
Qed.

Lemma last_segment_no_slash (r : string) : has_slash (last_segment r) = false.
Proof.
  unfold has_slash, last_segment. destruct (split_last r) as [seg Hseg].
  rewrite Hseg. simpl. rewrite (split_no_slash r seg); [done|].
  unfold R_last in Hseg. rewrite last_lookup in Hseg.
  apply list_elem_of_In. by eapply list_elem_of_lookup_2.
Qed.

(** ** The factory, further *)

(** Settles a table of equivalences between results and conditions, once
    the conditions are decided. *)
Ltac decide_table :=
  repeat match goal with
         | |- _ /\ _ => split
         | |- _ <-> _ => split
         end;
  let H := fresh "H" in
  intros H;
  first [ done
        | discriminate H
        | decompose [and ex] H; congruence
        | repeat split; eauto; done ].

Section FactoryMore.
Variable isEmpty : jsval -> bool.
Variable Route : Type.
Variable Route_parseAll : jsval -> list Route.
Variable DEFAULT_TARGET_FOLDER : string.
Variable DEFAULT_APP_PORT : Z.
Variable cwd : string.
Variable resolve_join : string -> string -> string.

Let make := create isEmpty Route_parseAll DEFAULT_TARGET_FOLDER DEFAULT_APP_PORT
              cwd resolve_join.

(** X1. Each result of the factory tells which check decided: the id error
    means an empty id; the repo error a present id and an empty repo; the
    user-agent error present id and repo and an empty user agent; the route
    error those three present and an empty route; the segments error all
    four present and a repo without a slash; and the factory returns an app
    exactly when all four are present and the repo has a slash. *)
Theorem create_decides (st : settings) :
  let empty (o : option string) := isEmpty (of_str o) = true in
  let present (o : option string) := isEmpty (of_str o) = false in
  (make st = inl (Error msg_id) <-> empty (s_id st)) /\
  (make st = inl (Error msg_repo) <->
   present (s_id st) /\ empty (s_repo st)) /\
  (make st = inl (Error msg_userAgent) <->
   present (s_id st) /\ present (s_repo st) /\ empty (s_userAgent st)) /\
  (make st = inl (Error (msg_route (s_id st))) <->
   present (s_id st) /\ present (s_repo st) /\ present (s_userAgent st) /\
   isEmpty (s_route st) = true) /\
  (make st = inl (Error msg_parts) <->
   present (s_id st) /\ present (s_repo st) /\ present (s_userAgent st) /\
   isEmpty (s_route st) = false /\
   exists r, s_repo st = Some r /\ has_slash r = false) /\
  ((exists a, make st = inr a) <->
   present (s_id st) /\ present (s_repo st) /\ present (s_userAgent st) /\
   isEmpty (s_route st) = false /\
   exists r, s_repo st = Some r /\ has_slash r = true).
Proof.
  intros empty present. unfold empty, present, make, create.
  destruct (isEmpty (of_str (s_id st))) eqn:Hid; [decide_table|].
  destruct (isEmpty (of_str (s_repo st))) eqn:Hrepo; [decide_table|].
  destruct (isEmpty (of_str (s_userAgent st))) eqn:Hua; [decide_table|].
  destruct (isEmpty (s_route st)) eqn:Hroute; [decide_table|].
  destruct (s_repo st) as [r|] eqn:Hr; [|decide_table].
  pose proof (has_slash_split r) as Hs.
  destruct (Nat.ltb (length (split r)) 2); simpl in Hs; decide_table.
Qed.

(** X2. The repo setting is kept as the full path; the repo name is its
    first two segments, the sub-folder the other segments joined; and the
    name, followed by a slash and the sub-folder when there is a third
    segment, is the repo setting again. *)
Theorem create_repo_parts (st : settings) (a : app Route) :
  make st = inr a ->
  exists r user name rest,
    s_repo st = Some r /\ split r = user :: name :: rest /\
    r_fullPath (app_repo a) = r /\
    r_name (app_repo a) = user +:+ "/" +:+ name /\
    r_path (app_repo a) = join rest /\
    repoSubFolder a = r_path (app_repo a) /\
    r = r_name (app_repo a) +:+
        match rest with
        | [] => ""
        | _ => "/" +:+ r_path (app_repo a)
        end.
Proof.
  unfold make, create. intros H.
  destruct (isEmpty (of_str (s_id st))); [discriminate|].
  destruct (isEmpty (of_str (s_repo st))); [discriminate|].
  destruct (isEmpty (of_str (s_userAgent st))); [discriminate|].
  destruct (isEmpty (s_route st)); [discriminate|].
  destruct (s_repo st) as [r|]; [|discriminate].
  destruct (Nat.ltb (length (split r)) 2) eqn:Hlen; [discriminate|].
  apply Nat.ltb_ge in Hlen. pose proof (join_split r) as Hjoin.
  destruct (split r) as [|user [|name rest]] eqn:Hsplit;
    [simpl in Hlen; lia|simpl in Hlen; lia|].
  inversion H; subst a; clear H. simpl.
  assert (Htake : takeLast (S (S (length rest)) - 2) (user :: name :: rest) = rest).
  { unfold takeLast. simpl length.
    replace (S (S (length rest)) - (S (S (length rest)) - 2)) with 2 by lia.
    done. }
  simpl in Htake. rewrite Htake.
  exists r, user, name, rest. repeat split; try done.
  rewrite <- Hjoin at 1. unfold join. simpl.
  destruct rest as [|seg rest].
  - by rewrite append_nil_r.
  - by rewrite !append_assoc.
Qed.

End FactoryMore.

(** The sample validation settings have an app with a sub-folder. *)
Lemma create_repo_parts_witness :
  sample_create sample_settings = inr sample_app /\
  exists r user name rest,
    s_repo sample_settings = Some r /\ split r = user :: name :: rest /\
    r_fullPath (app_repo sample_app) = r /\
    r_name (app_repo sample_app) = user +:+ "/" +:+ name /\
    r_path (app_repo sample_app) = join rest /\
    repoSubFolder sample_app = r_path (app_repo sample_app) /\
    r = r_name (app_repo sample_app) +:+
        match rest with
        | [] => ""
        | _ => "/" +:+ r_path (app_repo sample_app)
        end.
Proof.
  split; [reflexivity|].
  apply (create_repo_parts sample_isEmpty string sample_parseAll ".build"
           3000%Z "/srv" (fun root id => root +:+ "/" +:+ id)
           sample_settings sample_app).
  reflexivity.
Defined.


(** ** The download state, further *)

Section SlotWf.
Context {Route : Type} (a : app Route).

Lemma slot_wf_init : slot_wf init_world.
Proof.
  split; [done|]. split; [intros q Hq; simpl in Hq; lia|].
  split; [intros q Hq; simpl in Hq; lia|done].
Qed.

Lemma slot_wf_inv (w : world) : slot_wf w -> slot_inv w.
Proof.
  intros (_ & Hres & Hslot & _) q Hq.
  assert (Hlt : q < length (promises w)) by by eapply lookup_lt_Some.
  destruct (downloading w) as [p|].
  - destruct Hslot as [Hp _]. f_equal.
    destruct (decide (q + 1 < length (promises w))) as [Hlt'|]; [|lia].
    destruct (Hres q Hlt') as [r Hr]. congruence.
  - destruct (Hslot q Hlt) as [r Hr]. congruence.
Qed.

Lemma download_slot_wf (options : download_options) (w : world) :
  slot_wf w -> slot_wf (download a options w).2.
Proof.
  intros Hwf. pose proof Hwf as (Hinv & Hres & Hslot & Hflag).
  unfold download. destruct (downloading w) as [p|] eqn:Hd; simpl; [done|].
  split; [|split; [|split]]; simpl.
  - unfold invocations in *. simpl. rewrite filter_app, !length_app.
    simpl. lia.
  - intros q Hq. rewrite length_app in Hq. simpl in Hq.
    destruct (Hslot q) as [r Hr]; [lia|].
    exists r. simpl. rewrite lookup_app_l; [done|lia].
  - split; [rewrite length_app; simpl; lia|]. left.
    rewrite lookup_app_r by lia. by rewrite Nat.sub_diag.
  - done.
Qed.

Lemma settle_slot_wf (p : nat) (o : outcome download_result) (w : world) :
  slot_wf w -> slot_wf (settle p o w).
Proof.
  intros Hwf. pose proof (slot_wf_inv w Hwf) as Hsi.
  destruct Hwf as (Hinv & Hres & Hslot & Hflag).
  unfold settle. destruct (promises w !! p) as [[|o']|] eqn:Hp; try done.
  assert (Hd : downloading w = Some p) by by apply Hsi.
  rewrite Hd in Hslot. destruct Hslot as [Hlast _].
  assert (Hkeep : forall q, q + 1 < length (promises w) ->
            exists r, <[p:=Settled o]> (promises w) !! q
                      = Some (Settled (Resolved r))).
  { intros q Hq. destruct (Hres q Hq) as [r Hr]. exists r.
    rewrite list_lookup_insert_ne; [done|lia]. }
  assert (Hself : <[p:=Settled o]> (promises w) !! p = Some (Settled o)).
  { apply list_lookup_insert_eq. lia. }
  destruct o as [r|e]; (split; [|split; [|split]]); simpl;
    rewrite ?length_insert; try done.
  - intros q Hq. destruct (decide (q = p)) as [->|Hne].
    + exists r. exact Hself.
    + apply Hkeep. lia.
  - rewrite Hd. split; [done|]. right. exists e. exact Hself.
Qed.

Lemma exec_slot_wf (acts : list action) (w : world) :
  slot_wf w -> slot_wf (exec a acts w).2.
Proof.
  revert w. induction acts as [|[options|p o] acts IH]; intros w Hwf; simpl.
  - done.
  - pose proof (download_slot_wf options w Hwf) as Hd.
    destruct (download a options w) as [h w1]. specialize (IH w1 Hd).
    by destruct (exec a acts w1).
  - apply IH. by apply settle_slot_wf.
Qed.

(** A world whose slot holds a rejected download never changes. *)
Lemma exec_after_rejection (acts : list action) (w : world) (p : nat)
    (e : error) :
  slot_inv w ->
  downloading w = Some p ->
  promises w !! p = Some (Settled (Rejected e)) ->
  (exec a acts w).2 = w /\ Forall (fun h => h = p) (exec a acts w).1.
Proof.
  intros Hinv Hd Hp. induction acts as [|[options|q o] acts IH]; simpl.
  - done.
  - rewrite (download_slot_set a options w p Hd).
    destruct (exec a acts w) as [ps w2]. simpl in *.
    destruct IH as [-> Hall]. split; [done|]. by constructor.
  - assert (Hw : settle q o w = w).
    { unfold settle. destruct (promises w !! q) as [[|o']|] eqn:Hq; try done.
      pose proof (Hinv q Hq). congruence. }
    by rewrite Hw.
Qed.
End SlotWf.

(** X4. Whatever calls and settlements have happened to an app:
    [appDownload] was called once for each promise; every download before
    the latest has resolved; the slot is empty exactly when the latest has
    resolved as well, and otherwise holds the latest, whether pending or
    rejected; and [isDownloading] has never become [true]. *)
Theorem download_state_wf {Route : Type} (a : app Route)
    (history : list action) :
  let w := (exec a history init_world).2 in
  invocations w = length (promises w) /\
  (forall q, q + 1 < length (promises w) -> resolved_at w q) /\
  (downloading w = None <->
   forall q, q < length (promises w) -> resolved_at w q) /\
  (forall p, downloading w = Some p ->
     p + 1 = length (promises w) /\
     (promises w !! p = Some Pending \/
      exists e, promises w !! p = Some (Settled (Rejected e)))) /\
  isDownloading w <> Some true.
Proof.
  intros w.
  pose proof (exec_slot_wf a history init_world slot_wf_init) as Hwf.
  fold w in Hwf. destruct Hwf as (Hinv & Hres & Hslot & Hflag).
  split; [done|]. split; [done|]. split; [|split; [|done]].
  - destruct (downloading w) as [p|]; [|done].
    destruct Hslot as [Hlast Hp]. split; [done|]. intros Hall.
    destruct (Hall p) as [r Hr]; [lia|].
    destruct Hp as [Hp|[e Hp]]; congruence.
  - intros p Hp. by rewrite Hp in Hslot.
Qed.

(** X5. Once a download of an app has been rejected, no call and no
    settlement changes the state of the app any more: every later call of
    [download] returns the rejected promise and [appDownload] is never called
    again. *)
Theorem download_never_retried {Route : Type} (a : app Route)
    (history further : list action) (p : nat) (e : error) :
  let w := (exec a history init_world).2 in
  promises w !! p = Some (Settled (Rejected e)) ->
  (exec a further w).2 = w /\
  Forall (fun h => h = p) (exec a further w).1 /\
  invocations (exec a further w).2 = invocations w.
Proof.
  intros w Hp.
  pose proof (exec_slot_wf a history init_world slot_wf_init) as Hwf.
  fold w in Hwf. pose proof (slot_wf_inv w Hwf) as Hinv.
  destruct Hwf as (_ & Hres & Hslot & _).
  assert (Hlt : p < length (promises w)) by by eapply lookup_lt_Some.
  assert (Hd : downloading w = Some p).
  { destruct (downloading w) as [p'|].
    - destruct Hslot as [Hlast _]. f_equal.
      destruct (decide (p + 1 < length (promises w))) as [Hlt'|]; [|lia].
      destruct (Hres p Hlt') as [r Hr]. congruence.
    - destruct (Hslot p Hlt) as [r Hr]. congruence. }
  destruct (exec_after_rejection a further w p e Hinv Hd Hp) as [Hw Hall].
  split; [done|]. split; [done|]. by rewrite Hw.
Qed.

(** After a rejection, a call, a late settlement and another call change
    nothing. *)
Lemma download_never_retried_witness :
  let e := Error "network" in
  let w := (exec sample_app [Call no_options; Settle 0 (Rejected e)]
              init_world).2 in
  let further := [Call no_options;
                  Settle 0 (Resolved {| d_path := "x"; d_installed := true |});
                  Call no_options] in
  promises w !! 0 = Some (Settled (Rejected e)) /\
  (exec sample_app further w).2 = w /\
  Forall (fun h => h = 0) (exec sample_app further w).1 /\
  invocations (exec sample_app further w).2 = invocations w.
Proof.
  intros e w further. split; [reflexivity|].
  apply (download_never_retried sample_app
           [Call no_options; Settle 0 (Rejected e)] further 0 e).
  reflexivity.
Defined.

(** ** Awaited downloads *)

Section AwaitProps.
Context {Route : Type} (a : app Route).

Lemma await_slot_set (o_download : nat -> outcome download_result)
    (options : download_options) (w : world) (p : nat) :
  downloading w = Some p ->
  download_await o_download a options w =
  match promises w !! p with
  | Some (Settled o) => Some (o, w)
  | _ => Some (o_download (length (trace w)),
               settle p (o_download (length (trace w))) w)
  end.
Proof.
  intros Hd. unfold download_await. by rewrite (download_slot_set a options w p Hd).
Qed.

Lemma await_idle (o_download : nat -> outcome download_result)
    (options : download_options) (w : world) :
  downloading w = None ->
  download_await o_download a options w =
  download_await o_download a options (download a options w).2.
Proof.
  intros Hd. unfold download_await at 1.
  destruct (download a options w) as [p w1] eqn:Hdl. simpl.
  assert (Hd1 : downloading w1 = Some p).
  { unfold download in Hdl. rewrite Hd in Hdl. by inversion Hdl. }
  by rewrite (await_slot_set o_download options w1 p Hd1).
Qed.

Lemma await_rejected_again (o_download : nat -> outcome download_result)
    (options : download_options) (w : world) (p : nat) (e : error) :
  downloading w = Some p ->
  promises w !! p = Some (Settled (Rejected e)) ->
  download_await o_download a options w = Some (Rejected e, w).
Proof. intros Hd Hp. by rewrite (await_slot_set _ _ w p Hd), Hp. Qed.

(** What an awaited download does in a world whose slot is set. *)
Lemma await_outcome_slot_set (o_download : nat -> outcome download_result)
    (options : download_options) (w : world) (p : nat) :
  slot_wf w ->
  downloading w = Some p ->
  exists o w',
    download_await o_download a options w = Some (o, w') /\
    slot_wf w' /\ trace w' = trace w /\
    (forall r, o = Resolved r ->
       downloading w' = None /\ isDownloading w' = Some false) /\
    (forall e, o = Rejected e ->
       forall o_download' options',
         download_await o_download' a options' w' = Some (Rejected e, w')).
Proof.
  intros Hwf Hd. rewrite (await_slot_set _ _ w p Hd).
  pose proof Hwf as (_ & _ & Hslot & _). rewrite Hd in Hslot.
  destruct Hslot as [Hlast [Hp|[e Hp]]]; rewrite Hp.
  - set (o := o_download (length (trace w))).
    exists o, (settle p o w). split; [done|].
    split; [by apply settle_slot_wf|]. split; [apply settle_trace|].
    assert (Hself : <[p:=Settled o]> (promises w) !! p = Some (Settled o)).
    { apply list_lookup_insert_eq. lia. }
    unfold settle. rewrite Hp. destruct o as [r|e]; split; try done.
    intros e' [= <-] o_download' options'.
    by apply (await_rejected_again _ _ _ p e).
  - exists (Rejected e), w. split; [done|]. split; [done|]. split; [done|].
    split; [done|]. intros e' [= <-] o_download' options'.
    by apply (await_rejected_again _ _ _ p e).
Qed.
End AwaitProps.

(** X6. An awaited download settles and keeps the download state well
    formed. When it resolves, the slot is empty afterwards and
    [isDownloading] is [false]. When it rejects, every later awaited download
    of the app rejects with the same error and leaves the world as it is,
    whatever the outside world would answer. *)
Theorem download_await_outcome {Route : Type} (a : app Route)
    (o_download : nat -> outcome download_result)
    (options : download_options) (w : world) :
  slot_wf w ->
  exists o w',
    download_await o_download a options w = Some (o, w') /\
    slot_wf w' /\
    (forall r, o = Resolved r ->
       downloading w' = None /\ isDownloading w' = Some false) /\
    (forall e, o = Rejected e ->
       forall o_download' options',
         download_await o_download' a options' w' = Some (Rejected e, w')).
Proof.
  intros Hwf. destruct (downloading w) as [p|] eqn:Hd.
  - destruct (await_outcome_slot_set a o_download options w p Hwf Hd)
      as (o & w' & H1 & H2 & _ & H3 & H4). by exists o, w'.
  - rewrite (await_idle a o_download options w Hd).
    pose proof (download_slot_wf a options w Hwf) as Hwf1.
    assert (Hd1 : downloading (download a options w).2
                  = Some (length (promises w))).
    { unfold download. by rewrite Hd. }
    destruct (await_outcome_slot_set a o_download options _ _ Hwf1 Hd1)
      as (o & w' & H1 & H2 & _ & H3 & H4). by exists o, w'.
Qed.

(** From the initial world: a download that fails on the network, then a
    second attempt that the network would serve. *)
Lemma download_await_outcome_witness :
  let failing := fun _ : nat => @Rejected download_result (Error "network") in
  slot_wf init_world /\
  exists w',
    download_await failing sample_app no_options init_world
    = Some (Rejected (Error "network"), w') /\
    download_await downloaded sample_app no_options w'
    = Some (Rejected (Error "network"), w').
Proof.
  intros failing. split; [apply slot_wf_init|].
  destruct (download_await_outcome sample_app failing no_options init_world
              slot_wf_init) as (o & w' & Hrun & _ & _ & Hrej).
  vm_compute in Hrun. inversion Hrun; subst. eexists. split; [reflexivity|].
  by apply Hrej.
Defined.

(** ** [start] and [restart], further *)

Section StartMore.
Context {Route : Type}.
Variable pm2_isInstalled : bool.
Variable o_version : nat -> outcome version_info.
Variable o_download : nat -> outcome download_result.
Variable o_connect : nat -> outcome unit.
Variable o_delete : nat -> outcome unit.
Variable appUpdate :
  string -> string -> M version_info -> (download_options -> M download_result) ->
  M (start_result Route) -> update_options -> M update_result.

Local Abbreviation stop :=
  (@stop Route pm2_isInstalled o_connect o_delete).
Local Abbreviation start :=
  (@start Route pm2_isInstalled o_version o_download o_connect o_delete
   appUpdate).
Local Abbreviation update :=
  (@update Route pm2_isInstalled o_version o_download o_connect o_delete
   appUpdate).
Local Abbreviation restart :=
  (@restart Route pm2_isInstalled o_version o_download o_connect o_delete
   appUpdate).

(** [stop] settles, touches nothing but the trace, runs no shell command,
    and with pm2 installed begins with the connect. *)
Lemma stop_shape (a : app Route) (w : world) :
  exists o w' evs,
    stop a w = Some (o, w') /\ trace w' = trace w ++ evs /\
    downloading w' = downloading w /\ promises w' = promises w /\
    isDownloading w' = isDownloading w /\
    (forall cmd, ~ In (EvShellExec cmd) evs) /\
    (pm2_isInstalled = true -> exists evs', evs = EvPm2Connect :: evs').
Proof.
  rewrite stop_cases. simpl. destruct pm2_isInstalled.
  - destruct (o_connect (length (trace w))) as [u|e].
    + destruct (o_delete (S (length (trace w)))) as [u'|e].
      * eexists _, _, [_; _; _]. split; [done|].
        split; [by rewrite !trace_log, <- !app_assoc|].
        repeat split; try done; [|eauto].
        intros cmd [H|[H|[H|[]]]]; discriminate.
      * eexists _, _, [_; _]. split; [done|].
        split; [by rewrite !trace_log, <- !app_assoc|].
        repeat split; try done; [|eauto].
        intros cmd [H|[H|[]]]; discriminate.
    + eexists _, _, [_]. split; [done|]. split; [done|].
      repeat split; try done; [|eauto].
      intros cmd [H|[]]; discriminate.
  - eexists _, _, [_]. split; [done|]. split; [done|].
    repeat split; try done. intros cmd [H|[]]; discriminate.
Qed.

(** X7. Once its update has settled, [start] settles too, adds to the trace
    only, and touches nothing of the download state. If the update
    rejected, [start] rejects with the same error and does nothing more: the
    process is not stopped. If the update resolved, [start] first runs
    [stop] (with pm2 installed, the connect comes first, whether or not the
    remote exists); when it resolves, its result has the id, port and routes
    of the app and the version of the update, [started] and [exists] are
    equal, and they are [false] exactly when the update said [exists:false]
    (an absent [exists] counts as existing); and the start command is the
    only shell command it can run, run exactly when the result says
    [started:true]. *)
Theorem start_outcome (n : nat) (a : app Route) (w w1 : world)
    (ou : outcome update_result) :
  update n a {| u_start := Some false |} w = Some (ou, w1) ->
  exists o w' evs,
    start (S n) a w = Some (o, w') /\ trace w' = trace w1 ++ evs /\
    downloading w' = downloading w1 /\ promises w' = promises w1 /\
    (forall e, ou = Rejected e -> o = Rejected e /\ evs = []) /\
    (forall status, ou = Resolved status ->
       (pm2_isInstalled = true -> exists evs', evs = EvPm2Connect :: evs') /\
       (forall r, o = Resolved r ->
          r = started_result a status (sr_started r) /\
          (sr_started r = false <-> ur_exists status = Some false)) /\
       (In (EvShellExec (start_command a)) evs <->
        exists r, o = Resolved r /\ sr_started r = true) /\
       (forall cmd, In (EvShellExec cmd) evs -> cmd = start_command a)).
Proof.
  intros Hu. rewrite start_unfold, Hu. destruct ou as [status|e].
  - destruct (stop_shape a w1)
      as (os & w2 & evs2 & Hs & Ht & Hd & Hp & _ & Hno & Hfirst).
    rewrite Hs. destruct os as [sres|e].
    + destruct (exists_not_false status) eqn:Hex.
      * eexists _, _, (evs2 ++ [_; _; _]).
        split; [done|]. split; [by rewrite !trace_log, Ht, <- !app_assoc|].
        split; [done|]. split; [done|]. split; [done|].
        intros status' [= <-]. split; [|split; [|split]].
        -- intros Hi. destruct (Hfirst Hi) as [evs' ->]. simpl. eauto.
        -- intros r [= <-]. split; [done|]. simpl.
           unfold exists_not_false in Hex.
           split; [done|]. intros Hf. by rewrite Hf in Hex.
        -- split; [eauto|]. intros _. apply in_or_app. right. simpl. auto.
        -- intros cmd Hin. apply in_app_or in Hin as [Hin|Hin].
           ++ by apply Hno in Hin.
           ++ destruct Hin as [H|[H|[H|[]]]]; congruence.
      * eexists _, _, (evs2 ++ [_]).
        split; [done|]. split; [by rewrite !trace_log, Ht, <- !app_assoc|].
        split; [done|]. split; [done|]. split; [done|].
        intros status' [= <-]. split; [|split; [|split]].
        -- intros Hi. destruct (Hfirst Hi) as [evs' ->]. simpl. eauto.
        -- intros r [= <-]. split; [done|]. simpl.
           unfold exists_not_false in Hex.
           split; [|done]. intros _.
           destruct (ur_exists status) as [[|]|]; done.
        -- split.
           ++ intros Hin. apply in_app_or in Hin as [Hin|Hin].
              ** by apply Hno in Hin.
              ** destruct Hin as [H|[]]. discriminate.
           ++ intros (r & [= <-] & Hr). discriminate.
        -- intros cmd Hin. apply in_app_or in Hin as [Hin|Hin].
           ++ by apply Hno in Hin.
           ++ destruct Hin as [H|[]]. discriminate.
    + exists (Rejected e), w2, evs2.
      split; [done|]. split; [done|]. split; [done|]. split; [done|].
      split; [done|]. intros status' [= <-]. split; [|split; [|split]].
      * done.
      * done.
      * split; [intros Hin; by apply Hno in Hin|].
        intros (r & Hr & _). discriminate.
      * intros cmd Hin. by apply Hno in Hin.
  - exists (Rejected e), w1, []. split; [done|].
    split; [by rewrite app_nil_r|]. split; [done|]. split; [done|].
    split; [by intros e' [= <-]|]. done.
Qed.

(** X8. With a publish callback that returns normally, a [restart] of an
    app whose remote manifest is missing resolves with [restarted:true] and
    publishes ["app:restarted"] with the id, once [stop] has resolved,
    although [start] only logged a warning and ran no shell command. *)
Theorem restart_missing_remote (n : nat) (a : app Route) (w w1 w2 : world)
    (status : update_result) (sres : stop_result) (f : publish_fn) :
  publishEvent a = Some f ->
  f "app:restarted" {| pl_id := app_id a; pl_version := None |} = None ->
  update n a {| u_start := Some false |} w = Some (Resolved status, w1) ->
  ur_exists status = Some false ->
  stop a w1 = Some (Resolved sres, w2) ->
  exists w',
    restart (S n) a w
    = Some (Resolved {| rs_id := app_id a; rs_restarted := true |}, w') /\
    trace w' = trace w2 ++
      [EvLogWarn (warn_missing a);
       EvPublish "app:restarted" {| pl_id := app_id a; pl_version := None |}].
Proof.
  intros Hf Hcb Hu Hex Hs. unfold restart, bind.
  rewrite start_unfold, Hu, Hs.
  assert (Hnf : exists_not_false status = false).
  { unfold exists_not_false. by rewrite Hex. }
  rewrite Hnf, Hf. unfold emit. simpl. rewrite Hcb. unfold ret.
  eexists. split; [done|]. by rewrite !trace_log, <- !app_assoc.
Qed.
End StartMore.

(** The sample app at version 1.2.0 on both sides, with pm2 installed:
    [start] stops and starts it. *)
Lemma start_outcome_witness :
  exists ou w1 o w' evs,
    update true (versions "1.2.0" "1.2.0") downloaded fine fine appUpdate_spec 1
      sample_app {| u_start := Some false |} init_world = Some (ou, w1) /\
    start true (versions "1.2.0" "1.2.0") downloaded fine fine appUpdate_spec 2
      sample_app init_world = Some (o, w') /\
    trace w' = trace w1 ++ evs /\
    exists evs', evs = EvPm2Connect :: evs'.
Proof.
  eexists _, _.
  destruct (start_outcome true (versions "1.2.0" "1.2.0") downloaded fine fine
              appUpdate_spec 1 sample_app init_world _ _
              ltac:(vm_compute; reflexivity))
    as (o & w' & evs & Hs & Ht & _ & _ & _ & Hres).
  exists o, w', evs. split; [vm_compute; reflexivity|].
  split; [exact Hs|]. split; [exact Ht|].
  exact (proj1 (Hres _ eq_refl) eq_refl).
Defined.

(** The sample app with a callback and no remote manifest. *)
Lemma restart_missing_remote_witness :
  exists w',
    restart false version_missing downloaded fine fine appUpdate_spec 2
      sample_app_pub init_world
    = Some (Resolved {| rs_id := "svc-a"; rs_restarted := true |}, w') /\
    forall cmd, ~ In (EvShellExec cmd) (trace w').
Proof.
  destruct (restart_missing_remote false version_missing downloaded fine fine
              appUpdate_spec 1 sample_app_pub init_world _ _ _ _ _
              eq_refl eq_refl
              ltac:(vm_compute; reflexivity) eq_refl
              ltac:(vm_compute; reflexivity)) as (w' & Hr & Ht).
  exists w'. split; [exact Hr|]. rewrite Ht.
  intros cmd Hin. vm_compute in Hin.
  destruct Hin as [H|[H|[H|[H|[]]]]]; discriminate.
Defined.

(** ** The dispatcher, further *)

Lemma split_single (s : string) : count_slash s = 0 -> split s = [s].
Proof.
  induction s as [|c s IH]; simpl; [done|].
  destruct (Ascii.eqb c "/"); [done|]. intros H. by rewrite (IH H).
Qed.

Lemma count_slash_append (s t : string) :
  count_slash (s +:+ t) = count_slash s + count_slash t.
Proof.
  induction s as [|c s IH]; [done|]. rewrite append_cons. simpl.
  destruct (Ascii.eqb c "/"); by rewrite IH.
Qed.

(** The last segment of a ref that ends with a slash and a name without
    slashes is the name. *)
Lemma last_segment_append (prefix b : string) :
  has_slash b = false -> last_segment (prefix +:+ "/" +:+ b) = b.
Proof.
  intros Hb. unfold has_slash in Hb. apply negb_false_iff, Nat.eqb_eq in Hb.
  unfold last_segment, R_last.
  induction prefix as [|c prefix IH].
  - change ("" +:+ "/" +:+ b) with (String "/" b). simpl.
    by rewrite (split_single b Hb).
  - rewrite append_cons. simpl.
    pose proof (split_length (prefix +:+ "/" +:+ b)) as Hlen.
    rewrite count_slash_append in Hlen.
    change (count_slash ("/" +:+ b)) with (S (count_slash b)) in Hlen.
    destruct (split (prefix +:+ "/" +:+ b)) as [|seg [|seg' segs]];
      [simpl in Hlen; lia|simpl in Hlen; lia|].
    by destruct (Ascii.eqb c "/").
Qed.

Lemma post_branch_of_ref (data : notification) (r : string) :
  n_ref data = Some r -> last_segment r <> "" ->
  post_branch data = last_segment r.
Proof.
  intros Hr Hne. unfold post_branch. rewrite Hr, ref_last_segment. simpl.
  by destruct (String.eqb_spec (last_segment r) "").
Qed.

Lemma post_updates (Route : Type) (apps : list (app Route))
    (data : notification) (a : app Route) (options : update_options) :
  In (UpdateCalled a options) (post apps data) <->
  In a apps /\ isRepoMatch data a = true /\ options = {| u_start := None |}.
Proof.
  unfold post. rewrite in_app_iff.
  assert (Hmap : In (UpdateCalled a options)
                   (map (fun a => UpdateCalled a {| u_start := None |})
                      (matchingApps apps data)) <->
                 In a apps /\ isRepoMatch data a = true /\
                 options = {| u_start := None |}).
  { rewrite in_map_iff. unfold matchingApps. split.
    - intros (a' & [= <- <-] & Hin). apply filter_In in Hin. tauto.
    - intros (Hin & Hm & ->). exists a. split; [done|].
      apply filter_In. tauto. }
  destruct (Nat.ltb 0 (length (matchingApps apps data))) eqn:Hl.
  - simpl. rewrite <- Hmap. split.
    + intros [[H|H]|[H|[]]]; [discriminate|done|discriminate].
    + intros H. left. by right.
  - apply Nat.ltb_ge in Hl.
    destruct (matchingApps apps data) eqn:Hm; [|simpl in Hl; lia].
    simpl in Hmap. split.
    + intros [[]|[H|[]]]. discriminate.
    + intros H. by apply Hmap in H.
Qed.

(** X9. Of a notification with a ref only the full name of the repository
    and the last segment of the ref count, when this segment is not empty:
    two such notifications with the same full name and the same last segment
    are dispatched alike, whatever the rest of the refs (a tag push counts as
    a push to the branch of that name) and whatever the default branches. *)
Theorem post_ref_prefix_irrelevant {Route : Type} (apps : list (app Route))
    (d1 d2 : notification) (r1 r2 : string) :
  n_full_name d1 = n_full_name d2 ->
  n_ref d1 = Some r1 -> n_ref d2 = Some r2 ->
  last_segment r1 = last_segment r2 -> last_segment r1 <> "" ->
  post apps d1 = post apps d2.
Proof.
  intros Hname Hr1 Hr2 Hseg Hne.
  assert (Hb : post_branch d1 = post_branch d2).
  { rewrite (post_branch_of_ref d1 r1), (post_branch_of_ref d2 r2); congruence. }
  assert (Hm : matchingApps apps d1 = matchingApps apps d2).
  { unfold matchingApps. apply filter_ext. intros a. unfold isRepoMatch.
    by rewrite Hname, Hb. }
  unfold post. by rewrite Hm, Hname, Hb.
Qed.

Lemma post_ref_prefix_irrelevant_witness :
  n_ref branch_push = Some "refs/heads/master" /\
  n_ref tag_push = Some "refs/tags/master" /\
  post [sample_app] branch_push = post [sample_app] tag_push /\
  In (UpdateCalled sample_app {| u_start := None |}) (post [sample_app] tag_push).
Proof.
  split; [reflexivity|]. split; [reflexivity|]. split.
  - apply (post_ref_prefix_irrelevant [sample_app] branch_push tag_push
             "refs/heads/master" "refs/tags/master"); try reflexivity.
    discriminate.
  - vm_compute. tauto.
Defined.

(** X10. An app whose branch has a slash is never updated by a notification
    whose ref has a last segment that is not empty: the last segment has no
    slash, so a push to [refs/heads/feature/x] looks for the branch [x]. *)
Theorem post_skips_slash_branch {Route : Type} (apps : list (app Route))
    (data : notification) (r : string) (a : app Route)
    (options : update_options) :
  n_ref data = Some r -> last_segment r <> "" ->
  has_slash (app_branch a) = true ->
  ~ In (UpdateCalled a options) (post apps data).
Proof.
  intros Hr Hne Hslash Hin. apply post_updates in Hin as (_ & Hm & _).
  unfold isRepoMatch in Hm. apply andb_true_iff in Hm as [_ Hb].
  apply String.eqb_eq in Hb. rewrite (post_branch_of_ref data r Hr Hne) in Hb.
  rewrite Hb, last_segment_no_slash in Hslash. discriminate.
Qed.

Lemma post_skips_slash_branch_witness :
  n_ref feature_push = Some "refs/heads/feature/x" /\
  has_slash (app_branch feature_app) = true /\
  r_name (app_repo feature_app) = n_full_name feature_push /\
  ~ In (UpdateCalled feature_app {| u_start := None |})
       (post [feature_app] feature_push).
Proof.
  split; [reflexivity|]. split; [reflexivity|]. split; [reflexivity|].
  apply (post_skips_slash_branch [feature_app] feature_push
           "refs/heads/feature/x" feature_app {| u_start := None |});
    [reflexivity|discriminate|reflexivity].
Defined.

(** The repo name and the branch of an app that the factory made. *)
Lemma create_name_branch (isEmpty : jsval -> bool) (Route : Type)
    (Route_parseAll : jsval -> list Route)
    (DEFAULT_TARGET_FOLDER : string) (DEFAULT_APP_PORT : Z) (cwd : string)
    (resolve_join : string -> string -> string)
    (st : settings) (a : app Route) :
  create isEmpty Route_parseAll DEFAULT_TARGET_FOLDER DEFAULT_APP_PORT cwd
    resolve_join st = inr a ->
  exists r,
    s_repo st = Some r /\
    r_name (app_repo a)
    = show (split r !! 0) +:+ "/" +:+ show (split r !! 1) /\
    app_branch a <> "".
Proof.
  unfold create. intros H.
  destruct (isEmpty (of_str (s_id st))); [discriminate|].
  destruct (isEmpty (of_str (s_repo st))); [discriminate|].
  destruct (isEmpty (of_str (s_userAgent st))); [discriminate|].
  destruct (isEmpty (s_route st)); [discriminate|].
  destruct (s_repo st) as [r|]; [|discriminate].
  destruct (Nat.ltb (length (split r)) 2); [discriminate|].
  inversion H; subst a; clear H. simpl. exists r.
  split; [done|]. split; [done|].
  unfold or_str. destruct (s_branch st) as [b|]; [|done].
  by destruct (String.eqb_spec b "").
Qed.

(** X11. An app that the factory made and that is among the dispatcher's
    apps is updated by every notification for the first two segments of its
    repo setting, whatever its sub-folder, that either has no ref and names
    the branch of the app as the default branch, or has a ref that ends with
    a slash and the branch of the app, when this branch has no slash. *)
Theorem registered_app_is_dispatched (isEmpty : jsval -> bool) {Route : Type}
    (Route_parseAll : jsval -> list Route)
    (DEFAULT_TARGET_FOLDER : string) (DEFAULT_APP_PORT : Z) (cwd : string)
    (resolve_join : string -> string -> string)
    (st : settings) (a : app Route) (apps : list (app Route))
    (data : notification) (r user name : string) (rest : list string) :
  create isEmpty Route_parseAll DEFAULT_TARGET_FOLDER DEFAULT_APP_PORT cwd
    resolve_join st = inr a ->
  In a apps ->
  s_repo st = Some r -> split r = user :: name :: rest ->
  n_full_name data = user +:+ "/" +:+ name ->
  (n_ref data = None /\ n_default_branch data = app_branch a) \/
  (has_slash (app_branch a) = false /\
   exists prefix, n_ref data = Some (prefix +:+ "/" +:+ app_branch a)) ->
  In (UpdateCalled a {| u_start := None |}) (post apps data).
Proof.
  intros Hc Hin Hr Hsplit Hname Href.
  destruct (create_name_branch _ _ _ _ _ _ _ st a Hc)
    as (r' & Hr' & Hrname & Hbranch).
  assert (r' = r) by congruence. subst r'.
  rewrite Hsplit in Hrname. simpl in Hrname.
  apply post_updates. split; [done|]. split; [|done].
  unfold isRepoMatch. apply andb_true_iff. split; apply String.eqb_eq.
  - congruence.
  - destruct Href as [[Hnone Hdef]|(Hslash & prefix & Hsome)].
    + unfold post_branch. rewrite Hnone. simpl. done.
    + rewrite (post_branch_of_ref data _ Hsome);
        rewrite (last_segment_append prefix _ Hslash); done.
Qed.

(** The sample app, registered with a sub-folder, gets the push to
    [acme/svc-a]. *)
Lemma registered_app_is_dispatched_witness :
  sample_create sample_settings = inr sample_app /\
  In (UpdateCalled sample_app {| u_start := None |})
     (post [feature_app; sample_app] branch_push).
Proof.
  split; [reflexivity|].
  apply (registered_app_is_dispatched sample_isEmpty sample_parseAll ".build"
           3000%Z "/srv" (fun root id => root +:+ "/" +:+ id)
           sample_settings sample_app [feature_app; sample_app] branch_push
           "acme/svc-a/sub/path" "acme" "svc-a" ["sub"; "path"]);
    try reflexivity.
  - right. by left.
  - right. split; [reflexivity|]. by exists "refs/heads".
Defined.
